(** * The normalize stage of dlt: a shallow embedding of
    [dlt/normalize/normalize.py] and the properties of its coordinator,
    worker and run driver. *)

From Stdlib Require Import ZArith Ascii String List Permutation Sorted Lia Bool.
From stdpp Require Import base option list gmap strings pretty.

Open Scope Z_scope.
Open Scope string_scope.
Open Scope list_scope.

(** ** Exceptions and results *)

(** The Python exceptions that the code under study raises, catches or lets
    through.  [StillRunning] is not one of them: it stands for a polling
    loop that has not ended within the rounds it was followed for. *)
Inductive exn : Type :=
  | ZeroDivisionError
  | IndexError
  | UnboundLocalError
  | ValueError
  | CannotCoerceColumnException
  | SchemaNotFoundError
  | SignalReceivedException
  | MalformedNameError
  | OSError
  | WorkerError
  | StillRunning.

Global Instance exn_eq_dec : EqDecision exn.
Proof. solve_decision. Defined.

(** A call either returns a value or raises. *)
Inductive result (A : Type) : Type :=
  | Ok (a : A)
  | Raise (e : exn).
Arguments Ok {A} a.
Arguments Raise {A} e.

Global Instance result_ret : MRet result := fun A a => Ok a.
Global Instance result_bind : MBind result := fun A B k r =>
  match r with
  | Ok a => k a
  | Raise e => Raise e
  end.

(** ** Python list primitives *)

Module Py.

(** [l[i]] with Python's negative indices: the position addressed, or
    [IndexError] when it falls outside the list. *)
Definition index {A : Type} (l : list A) (i : Z) : result nat :=
  let len := Z.of_nat (length l) in
  if (0 <=? i)%Z then
    if (i <? len)%Z then Ok (Z.to_nat i) else Raise IndexError
  else
    if (0 <=? len + i)%Z then Ok (Z.to_nat (len + i)) else Raise IndexError.

(** [l.pop()]: the last element and the list without it. *)
Fixpoint pop {A : Type} (l : list A) : result (A * list A) :=
  match l with
  | [] => Raise IndexError
  | [x] => Ok (x, [])
  | x :: (_ :: _) as tl =>
      match pop tl with
      | Ok (y, tl') => Ok (y, x :: tl')
      | Raise e => Raise e
      end
  end.

(** [enumerate(l)], counting from [start]. *)
Fixpoint enumerate_from {A : Type} (start : Z) (l : list A) : list (Z * A) :=
  match l with
  | [] => []
  | x :: tl => (start, x) :: enumerate_from (start + 1) tl
  end.

Definition enumerate {A : Type} (l : list A) : list (Z * A) :=
  enumerate_from 0 l.

(** [sorted(l)] on strings: insertion into an ascending list, by the
    code-point order of [str]. *)
Fixpoint insert_sorted (x : string) (l : list string) : list string :=
  match l with
  | [] => [x]
  | y :: tl => if String.leb x y then x :: y :: tl else y :: insert_sorted x tl
  end.

Fixpoint sorted (l : list string) : list string :=
  match l with
  | [] => []
  | x :: tl => insert_sorted x (sorted tl)
  end.

End Py.

(** Ascending order of file names, as [sorted] produces it. *)
Definition str_le (a b : string) : Prop := String.leb a b = true.

(** ** [Normalize.group_worker_files] *)

Module Group.

(** Modelled from the spec: [chunks] is imported from [dlt.common.utils],
    which is not part of the sources at hand; the spec calls it the simple
    chunking of the list into consecutive slices of [chunk_size] elements,
    the last one possibly shorter.  A step of zero is refused, as Python's
    [range] does. *)
Fixpoint chunks_from {A : Type} (fuel : nat) (seq : list A) (n : nat)
  : list (list A) :=
  match fuel, seq with
  | S fuel', _ :: _ => take n seq :: chunks_from fuel' (drop n seq) n
  | _, _ => []
  end.

Definition chunks {A : Type} (seq : list A) (n : nat) : result (list (list A)) :=
  match n with
  | O => Raise ValueError
  | S _ => Ok (chunks_from (length seq) seq n)
  end.

(** The inner [for idx, file in enumerate(reversed(...))] loop.  [idx] is
    a local of the enclosing function: it keeps the value of the last
    round, and stays unbound if there was none. *)
Fixpoint distribute (items : list (Z * string)) (l_idx remainder_l : Z)
    (idx : option Z) (chunk_files : list (list string))
  : result (option Z * list (list string)) :=
  match items with
  | [] => Ok (idx, chunk_files)
  | (idx', file) :: rest =>
      i ← Py.index chunk_files (- l_idx - idx' - remainder_l);
       distribute rest l_idx remainder_l (Some idx')
         (alter (fun chunk => chunk ++ [file]) i chunk_files)
  end.

(** The [while remainder_l > 0] loop.  [remainder_l] goes down by one each
    round, so the rounds are counted by the natural number
    [Z.to_nat remainder_l]; a non-positive start runs no round. *)
Fixpoint redistribute (remainder_l : nat) (l_idx : Z) (idx : option Z)
    (chunk_files : list (list string)) : result (list (list string)) :=
  match remainder_l with
  | O => Ok chunk_files
  | S remainder_l' =>
      '(popped, chunk_files) ← Py.pop chunk_files;
       '(idx, chunk_files) ←
          distribute (Py.enumerate (rev popped)) l_idx
            (Z.of_nat remainder_l) idx chunk_files;
       match idx with
       | None => Raise UnboundLocalError
       | Some idx => redistribute remainder_l' (idx + 1) (Some idx) chunk_files
       end
  end.

Definition group_worker_files (files : list string) (no_groups : Z)
  : result (list (list string)) :=
  let files := Py.sorted files in
  if (no_groups =? 0)%Z then Raise ZeroDivisionError
  else
    let chunk_size := Z.max (Z.of_nat (length files) / no_groups) 1 in
    chunk_files ← chunks files (Z.to_nat chunk_size);
     let remainder_l := Z.of_nat (length chunk_files) - no_groups in
     redistribute (Z.to_nat remainder_l) 0 None chunk_files.

End Group.

(** ** State and exceptions *)

(** A method that reads and changes a state [S] and may raise.  What it did
    to the state before raising stays done. *)
Definition St (S A : Type) : Type := S -> result A * S.

Global Instance St_ret {S : Type} : MRet (St S) := fun A a s => (Ok a, s).
Global Instance St_bind {S : Type} : MBind (St S) := fun A B k m s =>
  match m s with
  | (Ok a, s') => k a s'
  | (Raise e, s') => (Raise e, s')
  end.

Definition get {S : Type} : St S S := fun s => (Ok s, s).
Definition gets {S A : Type} (f : S -> A) : St S A := fun s => (Ok (f s), s).
Definition modify {S : Type} (f : S -> S) : St S unit := fun s => (Ok tt, f s).
Definition raise {S A : Type} (e : exn) : St S A := fun s => (Raise e, s).
Definition lift {S A : Type} (r : result A) : St S A := fun s => (r, s).

(** [try: body / except ...: handler]; the handler answers [None] for the
    exceptions its [except] clause does not name. *)
Definition try_except {S A : Type} (body : St S A)
    (handler : exn -> option (St S A)) : St S A := fun s =>
  match body s with
  | (Ok a, s') => (Ok a, s')
  | (Raise e, s') =>
      match handler e with
      | Some h => h s'
      | None => (Raise e, s')
      end
  end.

(** [try: body / finally: final]. *)
Definition try_finally {S A : Type} (body : St S A) (final : St S unit)
  : St S A := fun s =>
  let '(r, s') := body s in
  match final s' with
  | (Ok _, s'') => (r, s'')
  | (Raise e, s'') => (Raise e, s'')
  end.

(** [for x in l: body]. *)
Fixpoint for_each {S A : Type} (l : list A) (body : A -> St S unit) : St S unit :=
  match l with
  | [] => mret tt
  | x :: tl => body x ;; for_each tl body
  end.

(** Running a method of a part of the state. *)
Definition zoom {S T A : Type} (proj : S -> T) (inj : T -> S -> S)
    (m : St T A) : St S A := fun s =>
  let '(r, t) := m (proj s) in (r, inj t s).

(** A method respects a relation on states when every run of it, ended by
    a return or by an exception, leaves a state related to the one it
    started from. *)
Definition respects {S A : Type} (R : S -> S -> Prop) (m : St S A) : Prop :=
  forall s, R s (m s).2.

(** Python's [a or b] on optional strings: [None] and the empty string are
    falsy. *)
Definition py_or (a b : option string) : option string :=
  match a with
  | Some s => if String.eqb s "" then b else a
  | None => b
  end.

(** ** Schema *)

(** Modelled from the spec: the schema classes live in [dlt.common.schema],
    outside the sources at hand.  The spec gives a schema as a named
    collection of tables, each with columns (name to column type) and
    optional per-normalizer annotations; a schema update maps a table name
    to an ordered list of partial tables. *)
Record TPartialTable : Type := {
  partial_name : string;
  partial_columns : list (string * string);
}.

Abbreviation TSchemaUpdate := (list (string * list TPartialTable)).

Record TTable : Type := {
  columns : gmap string string;
  x_normalizer : option string;
}.

Record Schema : Type := {
  schema_name : string;
  schema_tables : gmap string TTable;
}.

(** The value form shipped to workers carries the same data. *)
Abbreviation TStoredSchema := Schema (only parsing).

Definition to_dict (schema : Schema) : TStoredSchema := schema.
Definition from_stored_schema (stored_schema : TStoredSchema) : Schema :=
  stored_schema.

Definition column_conflicts (cols : gmap string string) (c : string * string)
  : bool :=
  match cols !! c.1 with
  | Some ty => negb (String.eqb ty c.2)
  | None => false
  end.

(** Modelled from the spec: [Schema.update_table] merges one table's added
    columns and raises a column-coercion conflict when an incoming column's
    type is incompatible with the existing one. *)
Definition schema_update_table (partial_table : TPartialTable) : St Schema unit :=
  fun schema =>
    let old := default {| columns := ∅; x_normalizer := None |}
                 (schema_tables schema !! partial_name partial_table) in
    if existsb (column_conflicts (columns old)) (partial_columns partial_table)
    then (Raise CannotCoerceColumnException, schema)
    else
      let merged :=
        {| columns := foldl (fun cols c => <[c.1 := c.2]> cols) (columns old)
                        (partial_columns partial_table);
           x_normalizer := x_normalizer old |} in
      (Ok tt,
       {| schema_name := schema_name schema;
          schema_tables :=
            <[partial_name partial_table := merged]> (schema_tables schema) |}).

(** Modelled from the spec: [merge_schema_updates] (from
    [dlt.common.schema.utils]) folds the updates into one, keeping the order
    of the partial tables of each table. *)
Fixpoint add_table_updates (merged : TSchemaUpdate) (table_name : string)
    (table_updates : list TPartialTable) : TSchemaUpdate :=
  match merged with
  | [] => [(table_name, table_updates)]
  | (t, ups) :: tl =>
      if String.eqb t table_name then (t, ups ++ table_updates) :: tl
      else (t, ups) :: add_table_updates tl table_name table_updates
  end.

Definition merge_schema_updates (schema_updates : list TSchemaUpdate)
  : TSchemaUpdate :=
  foldl (fun merged schema_update =>
           foldl (fun merged '(t, ups) => add_table_updates merged t ups)
             merged schema_update)
    [] schema_updates.

(** ** Row counts *)

(** Modelled from the spec: [merge_row_count] and [increase_row_count] come
    from [dlt.common.utils]; a row count maps a table name to a number and
    merging adds per key. *)
Definition merge_row_count (row_counts r_counts : gmap string Z) : gmap string Z :=
  union_with (fun a b => Some (a + b)%Z) row_counts r_counts.

Definition increase_row_count (row_counts : gmap string Z) (table_name : string)
    (count : Z) : gmap string Z :=
  <[table_name := (default 0%Z (row_counts !! table_name) + count)%Z]> row_counts.

(** ** The world around a [Normalize] instance *)

Record DestinationCapabilities : Type := {
  preferred_loader_file_format : option string;
  preferred_staging_file_format : option string;
  supported_loader_file_formats : option (list string);
}.

(** A load package on disk: its output files and the bookkeeping saved
    next to them. *)
Record Package : Type := {
  package_files : list string;
  package_schema : option Schema;
  package_schema_updates : option TSchemaUpdate;
}.

Definition empty_package : Package :=
  {| package_files := []; package_schema := None;
     package_schema_updates := None |}.

Record World : Type := {
  (** [config.destination_capabilities]: one object, reached by the
      coordinator and by every worker run in this process *)
  destination_capabilities : DestinationCapabilities;
  (** the extracted files waiting in the normalize storage *)
  extracted : list string;
  (** [temp/<load_id>/] and [processing/<load_id>/] of the load storage *)
  temp : gmap string Package;
  processing : gmap string Package;
  (** the schema storage *)
  stored_schemas : gmap string Schema;
  (** the process-wide termination flag *)
  signalled : bool;
  (** the clock load ids are taken from *)
  clock : Z;
  (** source of the unique part of output file names *)
  next_file_id : Z;
  (** the progress collector's counters *)
  collector : gmap string Z;
}.

Definition set_capabilities (c : DestinationCapabilities) (w : World) : World :=
  {| destination_capabilities := c; extracted := extracted w; temp := temp w;
     processing := processing w; stored_schemas := stored_schemas w;
     signalled := signalled w; clock := clock w;
     next_file_id := next_file_id w; collector := collector w |}.

Definition set_extracted (x : list string) (w : World) : World :=
  {| destination_capabilities := destination_capabilities w; extracted := x;
     temp := temp w; processing := processing w;
     stored_schemas := stored_schemas w; signalled := signalled w;
     clock := clock w; next_file_id := next_file_id w;
     collector := collector w |}.

Definition set_temp (t : gmap string Package) (w : World) : World :=
  {| destination_capabilities := destination_capabilities w;
     extracted := extracted w; temp := t; processing := processing w;
     stored_schemas := stored_schemas w; signalled := signalled w;
     clock := clock w; next_file_id := next_file_id w;
     collector := collector w |}.

Definition set_processing (p : gmap string Package) (w : World) : World :=
  {| destination_capabilities := destination_capabilities w;
     extracted := extracted w; temp := temp w; processing := p;
     stored_schemas := stored_schemas w; signalled := signalled w;
     clock := clock w; next_file_id := next_file_id w;
     collector := collector w |}.

Definition set_stored_schemas (s : gmap string Schema) (w : World) : World :=
  {| destination_capabilities := destination_capabilities w;
     extracted := extracted w; temp := temp w; processing := processing w;
     stored_schemas := s; signalled := signalled w; clock := clock w;
     next_file_id := next_file_id w; collector := collector w |}.

Definition set_clock (c : Z) (w : World) : World :=
  {| destination_capabilities := destination_capabilities w;
     extracted := extracted w; temp := temp w; processing := processing w;
     stored_schemas := stored_schemas w; signalled := signalled w; clock := c;
     next_file_id := next_file_id w; collector := collector w |}.

Definition set_next_file_id (n : Z) (w : World) : World :=
  {| destination_capabilities := destination_capabilities w;
     extracted := extracted w; temp := temp w; processing := processing w;
     stored_schemas := stored_schemas w; signalled := signalled w;
     clock := clock w; next_file_id := n; collector := collector w |}.

Definition set_collector (c : gmap string Z) (w : World) : World :=
  {| destination_capabilities := destination_capabilities w;
     extracted := extracted w; temp := temp w; processing := processing w;
     stored_schemas := stored_schemas w; signalled := signalled w;
     clock := clock w; next_file_id := next_file_id w; collector := c |}.

(** Modelled from the spec: [Collector.update(name, delta)] is a progress
    sink that adds to a named counter. *)
Definition collector_update (name : string) (delta : Z) (w : World) : World :=
  set_collector (increase_row_count (collector w) name delta) w.

(** [os.remove(file)] on an output file of a temp package. *)
Definition os_remove (file : string) : St World unit := fun w =>
  if bool_decide (map_Exists (fun _ pk => file ∈ package_files pk) (temp w))
  then
    (Ok tt,
     set_temp ((fun pk =>
                  {| package_files :=
                       filter (fun f => f <> file) (package_files pk);
                     package_schema := package_schema pk;
                     package_schema_updates := package_schema_updates pk |})
               <$> temp w) w)
  else (Raise OSError, w).

(** ** File names of the normalize storage *)

Record TParsedNormalizeFileName : Type := {
  parsed_schema_name : string;
  parsed_table_name : string;
  parsed_file_format : string;
  parsed_uniq_id : string;
}.

Fixpoint split_dots (s : string) : list string :=
  match s with
  | EmptyString => [EmptyString]
  | String c rest =>
      if Ascii.eqb c "."%char then EmptyString :: split_dots rest
      else match split_dots rest with
           | hd :: tl => String c hd :: tl
           | [] => [String c EmptyString]
           end
  end.

(** Modelled from the spec: [NormalizeStorage.parse_normalize_file_name] is
    not in the sources at hand; the spec's file name grammar is
    [<schema_name>.<table_name>.<file_format>.<uniq_id>.<ext>], and a name
    that does not conform is refused as malformed. *)
Definition parse_normalize_file_name (file_name : string)
  : result TParsedNormalizeFileName :=
  match split_dots file_name with
  | [s; t; f; u; _] =>
      Ok {| parsed_schema_name := s; parsed_table_name := t;
            parsed_file_format := f; parsed_uniq_id := u |}
  | _ => Raise MalformedNameError
  end.

(** ** Load storages inside a worker *)

(** The list object a load storage was given as its supported formats:
    the capabilities' own list, or a list made for the occasion. *)
Inductive formats_ref : Type :=
  | CapabilitiesList
  | OwnList (l : list string).

(** Modelled from the spec: [LoadStorage] is not in the sources at hand.
    The spec gives its construction parameters (read-only flag, default
    write format, supported formats, configuration), writers that
    [close_writers] finalizes, and [closed_files], the paths written by this
    instance. *)
Record LoadStorage : Type := {
  is_owner : bool;
  loader_file_format : option string;
  supported_file_formats : formats_ref;
  open_writers : list string;
  closed_files : list string;
}.

Definition new_load_storage (owner : bool) (file_format : option string)
    (supported_formats : formats_ref) : LoadStorage :=
  {| is_owner := owner; loader_file_format := file_format;
     supported_file_formats := supported_formats;
     open_writers := []; closed_files := [] |}.

(** The writer of a table is opened by the first write to it. *)
Definition get_writer (table_name : string) (storage : LoadStorage) : LoadStorage :=
  if bool_decide (table_name ∈ open_writers storage) then storage
  else
    {| is_owner := is_owner storage;
       loader_file_format := loader_file_format storage;
       supported_file_formats := supported_file_formats storage;
       open_writers := open_writers storage ++ [table_name];
       closed_files := closed_files storage |}.

Definition output_file_name (load_id table_name : string) (file_id : Z)
    (file_format : option string) : string :=
  load_id ++ "/" ++ table_name ++ "." ++ pretty file_id ++ "."
    ++ default "none" file_format.

(** The two item normalizers, chosen by input format. *)
Inductive normalizer_class : Type :=
  | ParquetItemsNormalizer
  | JsonLItemsNormalizer.

(** An item normalizer keeps the load storage it was built with; load
    storages are referred to by their key in [load_storages]. *)
Record ItemsNormalizer : Type := {
  normalizer_klass : normalizer_class;
  normalizer_load_storage : option string;
}.

(** What the collaborators of the worker do, for the parts the worker code
    only calls: the naming convention of the schema and the item
    normalizers.  A normalizer is called with a file and its root table; it
    sees the worker's schema, may widen it, and returns
    [(partial_updates, items_count, r_counts)] or raises. *)
Record Collaborators : Type := {
  normalize_table_identifier : string -> string;
  normalize_items :
    normalizer_class -> string -> string -> Schema ->
    result (list TSchemaUpdate * Z * gmap string Z * Schema);
}.

(** The calls a worker makes on its load storages, in order. *)
Inductive worker_call : Type :=
  | NewLoadStorage (write_format : option string)
  | WriteDataItems (storage : option string) (file : string)
  | WriteEmptyFile (storage : option string) (table_name : string)
  | CloseWriters (storage : option string).

Global Instance worker_call_eq_dec : EqDecision worker_call.
Proof. solve_decision. Defined.

Definition is_close_writers (c : worker_call) : bool :=
  match c with
  | CloseWriters _ => true
  | _ => false
  end.

Definition is_write_empty_file (c : worker_call) : bool :=
  match c with
  | WriteEmptyFile _ _ => true
  | _ => false
  end.

(** The [(schema_updates, total_items, closed_files, row_counts)] a worker
    returns. *)
Abbreviation TWorkerRV :=
  (list TSchemaUpdate * Z * list string * gmap string Z)%type.

(** The locals of one [w_normalize_files] call, next to the world it runs
    in.  [load_storage] is the local variable of that name: a reference to
    one of the storages in [load_storages]. *)
Record Worker : Type := {
  worker_world : World;
  schema : Schema;
  schema_updates : list TSchemaUpdate;
  total_items : Z;
  row_counts : gmap string Z;
  load_storages : gmap (option string) LoadStorage;
  item_normalizers : gmap string ItemsNormalizer;
  load_storage : option string;
  root_tables : gset string;
  populated_root_tables : gset string;
  worker_calls : list worker_call;
}.

Definition set_worker_world (w : World) (st : Worker) : Worker :=
  {| worker_world := w; schema := schema st;
     schema_updates := schema_updates st; total_items := total_items st;
     row_counts := row_counts st; load_storages := load_storages st;
     item_normalizers := item_normalizers st; load_storage := load_storage st;
     root_tables := root_tables st;
     populated_root_tables := populated_root_tables st;
     worker_calls := worker_calls st |}.

Definition set_load_storages (m : gmap (option string) LoadStorage)
    (st : Worker) : Worker :=
  {| worker_world := worker_world st; schema := schema st;
     schema_updates := schema_updates st; total_items := total_items st;
     row_counts := row_counts st; load_storages := m;
     item_normalizers := item_normalizers st; load_storage := load_storage st;
     root_tables := root_tables st;
     populated_root_tables := populated_root_tables st;
     worker_calls := worker_calls st |}.

Definition set_item_normalizers (m : gmap string ItemsNormalizer)
    (st : Worker) : Worker :=
  {| worker_world := worker_world st; schema := schema st;
     schema_updates := schema_updates st; total_items := total_items st;
     row_counts := row_counts st; load_storages := load_storages st;
     item_normalizers := m; load_storage := load_storage st;
     root_tables := root_tables st;
     populated_root_tables := populated_root_tables st;
     worker_calls := worker_calls st |}.

Definition set_load_storage (ref : option string) (st : Worker) : Worker :=
  {| worker_world := worker_world st; schema := schema st;
     schema_updates := schema_updates st; total_items := total_items st;
     row_counts := row_counts st; load_storages := load_storages st;
     item_normalizers := item_normalizers st; load_storage := ref;
     root_tables := root_tables st;
     populated_root_tables := populated_root_tables st;
     worker_calls := worker_calls st |}.

Definition add_root_table (table_name : string) (st : Worker) : Worker :=
  {| worker_world := worker_world st; schema := schema st;
     schema_updates := schema_updates st; total_items := total_items st;
     row_counts := row_counts st; load_storages := load_storages st;
     item_normalizers := item_normalizers st; load_storage := load_storage st;
     root_tables := {[table_name]} ∪ root_tables st;
     populated_root_tables := populated_root_tables st;
     worker_calls := worker_calls st |}.

Definition log_worker_call (c : worker_call) (st : Worker) : Worker :=
  {| worker_world := worker_world st; schema := schema st;
     schema_updates := schema_updates st; total_items := total_items st;
     row_counts := row_counts st; load_storages := load_storages st;
     item_normalizers := item_normalizers st; load_storage := load_storage st;
     root_tables := root_tables st;
     populated_root_tables := populated_root_tables st;
     worker_calls := worker_calls st ++ [c] |}.

Definition set_schema (new_schema : Schema) (st : Worker) : Worker :=
  {| worker_world := worker_world st; schema := new_schema;
     schema_updates := schema_updates st; total_items := total_items st;
     row_counts := row_counts st; load_storages := load_storages st;
     item_normalizers := item_normalizers st; load_storage := load_storage st;
     root_tables := root_tables st;
     populated_root_tables := populated_root_tables st;
     worker_calls := worker_calls st |}.

(** Lines 137 to 144 of the loop body: what one normalized file adds to the
    accumulators. *)
Definition accumulate (partial_updates : list TSchemaUpdate) (items_count : Z)
    (r_counts : gmap string Z) (root_table_name : string) (st : Worker)
  : Worker :=
  {| worker_world := worker_world st; schema := schema st;
     schema_updates := schema_updates st ++ partial_updates;
     total_items := (total_items st + items_count)%Z;
     row_counts :=
       increase_row_count (merge_row_count (row_counts st) r_counts)
         root_table_name 0;
     load_storages := load_storages st;
     item_normalizers := item_normalizers st; load_storage := load_storage st;
     root_tables := root_tables st;
     populated_root_tables :=
       if (items_count >? 0)%Z
       then {[root_table_name]} ∪ populated_root_tables st
       else populated_root_tables st;
     worker_calls := worker_calls st |}.

Definition init_worker (w : World) (stored_schema : TStoredSchema) : Worker :=
  {| worker_world := w; schema := from_stored_schema stored_schema;
     schema_updates := []; total_items := 0; row_counts := ∅;
     load_storages := ∅; item_normalizers := ∅;
     load_storage := None; (* bound at line 107, before any use *)
     root_tables := ∅; populated_root_tables := ∅; worker_calls := [] |}.

(** What a worker may do to the capabilities: the two preferred formats
    stay, and the list of supported formats either stays or, if it holds
    parquet, has gained some [arrow] entries at its end. *)
Definition caps_grow (c c' : DestinationCapabilities) : Prop :=
  preferred_loader_file_format c' = preferred_loader_file_format c
  /\ preferred_staging_file_format c' = preferred_staging_file_format c
  /\ (supported_loader_file_formats c' = supported_loader_file_formats c
      \/ exists l k,
           supported_loader_file_formats c = Some l
           /\ "parquet" ∈ l
           /\ supported_loader_file_formats c' = Some (l ++ replicate k "arrow")).

Definition worker_caps (st : Worker) : DestinationCapabilities :=
  destination_capabilities (worker_world st).

Definition worker_caps_grow (st st' : Worker) : Prop :=
  caps_grow (worker_caps st) (worker_caps st').

(** The write-format selection rule, as the spec words it: parquet input
    for a destination that supports parquet is written as arrow; anything
    else in the preferred loader format, or in the preferred staging format
    when there is no preferred loader format. *)
Definition selected_write_format (caps : DestinationCapabilities)
    (file_format : option string) : option string :=
  if bool_decide (file_format = Some "parquet")
     && bool_decide ("parquet" ∈ default [] (supported_loader_file_formats caps))
  then Some "arrow"
  else match preferred_loader_file_format caps with
       | Some f => if String.eqb f "" then preferred_staging_file_format caps
                   else Some f
       | None => preferred_staging_file_format caps
       end.

(** ** The worker task: [Normalize.w_normalize_files] *)

Section WorkerTask.

Variable env : Collaborators.

(** The list a supported-formats reference stands for. *)
Definition formats_of (ref : formats_ref) (caps : DestinationCapabilities)
  : list string :=
  match ref with
  | CapabilitiesList => default [] (supported_loader_file_formats caps)
  | OwnList l => l
  end.

(** [destination_caps.supported_loader_file_formats or []]: the
    capabilities' list itself when it is truthy, a new empty list when it
    is [None] or empty. *)
Definition supported_or_empty (caps : DestinationCapabilities) : formats_ref :=
  match supported_loader_file_formats caps with
  | Some (_ :: _) => CapabilitiesList
  | _ => OwnList []
  end.

(** [supported_formats.append(fmt)], in place on the list referred to. *)
Definition append_format (ref : formats_ref) (fmt : string)
  : St Worker formats_ref :=
  match ref with
  | OwnList l => mret (OwnList (l ++ [fmt]))
  | CapabilitiesList =>
      modify (fun st =>
        let w := worker_world st in
        let caps := destination_capabilities w in
        set_worker_world
          (set_capabilities
             {| preferred_loader_file_format :=
                  preferred_loader_file_format caps;
                preferred_staging_file_format :=
                  preferred_staging_file_format caps;
                supported_loader_file_formats :=
                  Some (default [] (supported_loader_file_formats caps)
                          ++ [fmt]) |} w) st);;
      mret CapabilitiesList
  end.

Definition _get_load_storage (file_format : option string)
  : St Worker (option string) :=
  destination_caps ← gets (fun st => destination_capabilities (worker_world st));
  let supported_formats := supported_or_empty destination_caps in
  let preferred :=
    py_or (preferred_loader_file_format destination_caps)
          (preferred_staging_file_format destination_caps) in
  '(supported_formats, file_format) ←
    (if bool_decide (file_format = Some "parquet") then
       if bool_decide ("parquet" ∈ formats_of supported_formats destination_caps)
       then
         supported_formats ← append_format supported_formats "arrow";
         mret (supported_formats, Some "arrow")
       else mret (supported_formats, preferred)
     else mret (supported_formats, preferred));
  storages ← gets load_storages;
  match storages !! file_format with
  | Some _ => mret file_format
  | None =>
      modify (fun st =>
        log_worker_call (NewLoadStorage file_format)
          (set_load_storages
             (<[file_format :=
                  new_load_storage false file_format supported_formats]>
                (load_storages st)) st));;
      mret file_format
  end.

Definition _get_items_normalizer (file_format : string)
  : St Worker (ItemsNormalizer * option string) :=
  load_storage ← _get_load_storage (Some file_format);
  normalizers ← gets item_normalizers;
  match normalizers !! file_format with
  | Some norm => mret (norm, load_storage)
  | None =>
      let klass :=
        if String.eqb file_format "parquet" then ParquetItemsNormalizer
        else JsonLItemsNormalizer in
      let norm := {| normalizer_klass := klass;
                     normalizer_load_storage := load_storage |} in
      modify (fun st =>
        set_item_normalizers (<[file_format := norm]> (item_normalizers st)) st);;
      mret (norm, load_storage)
  end.

(** Changing the load storage a reference leads to. *)
Definition on_storage (ref : option string) (f : LoadStorage -> LoadStorage)
    (st : Worker) : Worker :=
  set_load_storages (alter f ref (load_storages st)) st.

(** [normalizer(extracted_items_file, root_table_name)].  Modelled from
    the spec for what the call does besides returning: the normalizer
    converts the rows of the file into output rows, which it writes
    through the load storage it was built with, one writer per table that
    received rows. *)
Definition call_normalizer (normalizer : ItemsNormalizer)
    (extracted_items_file root_table_name : string)
  : St Worker (list TSchemaUpdate * Z * gmap string Z) :=
  st ← get;
  '(partial_updates, items_count, r_counts, new_schema) ←
    lift (normalize_items env (normalizer_klass normalizer)
            extracted_items_file root_table_name (schema st));
  let written :=
    (map_to_list (filter (fun kv => (0 < kv.2)%Z) r_counts)).*1 in
  modify (fun st =>
    log_worker_call
      (WriteDataItems (normalizer_load_storage normalizer) extracted_items_file)
      (on_storage (normalizer_load_storage normalizer)
         (fun storage => foldl (fun s t => get_writer t s) storage written)
         (set_schema new_schema st)));;
  mret (partial_updates, items_count, r_counts).

(** [load_storage.write_empty_file(load_id, schema.name, table_name,
    columns)] *)
Definition write_empty_file (ref : option string) (table_name : string)
  : St Worker unit :=
  modify (fun st =>
    log_worker_call (WriteEmptyFile ref table_name)
      (on_storage ref (get_writer table_name) st)).

(** Finalizing the open writers of one storage: each becomes a file of
    the temp package [load_id], with a name of its own. *)
Fixpoint close_all (load_id : string) (file_format : option string)
    (tables : list string) (closed : list string) (w : World)
  : list string * World :=
  match tables with
  | [] => (closed, w)
  | t :: tl =>
      let file := output_file_name load_id t (next_file_id w) file_format in
      let pk := default empty_package (temp w !! load_id) in
      let pk' := {| package_files := package_files pk ++ [file];
                    package_schema := package_schema pk;
                    package_schema_updates := package_schema_updates pk |} in
      close_all load_id file_format tl (closed ++ [file])
        (set_temp (<[load_id := pk']> (temp w))
           (set_next_file_id (next_file_id w + 1) w))
  end.

(** [load_storage.close_writers(load_id)] *)
Definition close_writers (ref : option string) (load_id : string)
  : St Worker unit :=
  modify (fun st =>
    let st := log_worker_call (CloseWriters ref) st in
    match load_storages st !! ref with
    | None => st
    | Some storage =>
        let '(closed, w) :=
          close_all load_id (loader_file_format storage)
            (open_writers storage) (closed_files storage) (worker_world st) in
        set_worker_world w
          (on_storage ref (fun storage =>
             {| is_owner := is_owner storage;
                loader_file_format := loader_file_format storage;
                supported_file_formats := supported_file_formats storage;
                open_writers := []; closed_files := closed |}) st)
    end).

(** The body of the [for extracted_items_file in extracted_items_files]
    loop. *)
Definition normalize_file (extracted_items_file : string) : St Worker unit :=
  parsed_file_name ← lift (parse_normalize_file_name extracted_items_file);
  let root_table_name :=
    normalize_table_identifier env (parsed_table_name parsed_file_name) in
  modify (add_root_table root_table_name);;
  let file_format := parsed_file_format parsed_file_name in
  '(normalizer, storage) ← _get_items_normalizer file_format;
  modify (set_load_storage storage);;
  '(partial_updates, items_count, r_counts) ←
    call_normalizer normalizer extracted_items_file root_table_name;
  modify (accumulate partial_updates items_count r_counts root_table_name).

(** The [for table_name in root_tables - populated_root_tables] loop. *)
Definition write_empty_jobs : St Worker unit :=
  st ← get;
  for_each (elements (root_tables st ∖ populated_root_tables st))
    (fun table_name =>
       st ← get;
       match schema_tables (schema st) !! table_name with
       | None => mret tt
       | Some _ => write_empty_file (load_storage st) table_name
       end).

(** [w_normalize_files] from line 105 on, with its locals in view.  The
    three configuration arguments are left out: of the configuration only
    [destination_capabilities] is read, and it is reached through the
    world. *)
Definition w_normalize_files_locals (load_id : string)
    (extracted_items_files : list string) : St Worker TWorkerRV :=
  destination_caps ← gets (fun st => destination_capabilities (worker_world st));
  default_storage ←
    _get_load_storage (preferred_loader_file_format destination_caps);
  modify (set_load_storage default_storage);;
  try_finally
    (for_each extracted_items_files normalize_file;;
     write_empty_jobs)
    (st ← get; close_writers (load_storage st) load_id);;
  st ← get;
  mret (schema_updates st, total_items st,
        default [] (closed_files <$> load_storages st !! load_storage st),
        row_counts st).

Definition w_normalize_files (stored_schema : TStoredSchema)
    (load_id : string) (extracted_items_files : list string)
  : St World TWorkerRV := fun w =>
  let '(r, st) :=
    w_normalize_files_locals load_id extracted_items_files
      (init_worker w stored_schema) in
  (r, worker_world st).

End WorkerTask.

(** What holds of a worker's locals throughout a run started with the
    capabilities [caps0]: the capabilities have at most grown; every load
    storage has the write format it is filed under and was given the
    supported-formats list of the capabilities; every cached normalizer
    keeps the storage the selection rule gives for its input format; and
    every file written so far went to the storage the rule gives for its
    own format, with [arrow] among the supported formats if it was a
    parquet file for a destination that supports parquet. *)
Definition arrow_supported (caps0 : DestinationCapabilities)
    (file_format : string) (st : Worker) : Prop :=
  file_format = "parquet" ->
  "parquet" ∈ default [] (supported_loader_file_formats caps0) ->
  "arrow" ∈ default [] (supported_loader_file_formats (worker_caps st)).

Definition written_as_selected (caps0 : DestinationCapabilities)
    (st : Worker) (c : worker_call) : Prop :=
  match c with
  | WriteDataItems k f =>
      exists parsed storage,
        parse_normalize_file_name f = Ok parsed
        /\ k = selected_write_format caps0 (Some (parsed_file_format parsed))
        /\ load_storages st !! k = Some storage
        /\ arrow_supported caps0 (parsed_file_format parsed) st
  | _ => True
  end.

Definition worker_inv (caps0 : DestinationCapabilities) (st : Worker) : Prop :=
  caps_grow caps0 (worker_caps st)
  /\ (forall k s, load_storages st !! k = Some s ->
        loader_file_format s = k
        /\ supported_file_formats s = supported_or_empty caps0)
  /\ (forall fmt n, item_normalizers st !! fmt = Some n ->
        normalizer_load_storage n = selected_write_format caps0 (Some fmt)
        /\ is_Some (load_storages st !! normalizer_load_storage n))
  /\ Forall (written_as_selected caps0 st) (worker_calls st).

Definition keeps_inv (caps0 : DestinationCapabilities) (st st' : Worker)
  : Prop :=
  worker_inv caps0 st -> worker_inv caps0 st'.

(** The state after [supported_formats.append("arrow")] on the
    capabilities' list. *)
Definition append_arrow (st : Worker) : Worker :=
  (append_format CapabilitiesList "arrow" st).2.

(** A worker leaves the progress collector alone. *)
Definition same_collector (st st' : Worker) : Prop :=
  collector (worker_world st') = collector (worker_world st).

(** [file] is an output file of some temp package. *)
Definition in_temp (w : World) (file : string) : Prop :=
  map_Exists (fun _ pk => file ∈ package_files pk) (temp w).

(** ** The coordinator: [update_table], [map_parallel], [map_single] *)

(** [Normalize.update_table]: every partial table of every update, in
    order; the first conflict ends the merge, what was merged before it
    stays merged. *)
Definition update_table (schema_updates : list TSchemaUpdate) : St Schema unit :=
  for_each schema_updates (fun schema_update =>
    for_each schema_update (fun '(table_name, table_updates) =>
      for_each table_updates schema_update_table)).

(** Modelled from the spec: the pool contract is [submit(fn, *args)] giving
    a future with [done()] and [result()], and a readable [_max_workers],
    absent on the null pool.  A worker depends on its arguments only and
    writes files under names of its own, so a submitted task is run at
    [submit]; [completes id poll] tells whether [done()] already answers
    yes for future [id] at the coordinator's scan number [poll]. *)
Record Executor : Type := {
  _max_workers : option Z;
  completes : nat -> nat -> bool;
}.

Definition NullExecutor : Executor :=
  {| _max_workers := None; completes := fun _ _ => true |}.

Record Future : Type := {
  future_id : nat;
  future_result : result TWorkerRV;
}.

(** The parameter tuple of a task, without its three configuration
    entries: positions 3, 4 and 5. *)
Record Params : Type := {
  param_schema : TStoredSchema;
  param_load_id : string;
  param_files : list string;
}.

(** The locals of one [map_parallel] call, next to the world. *)
Record Coordinator : Type := {
  c_world : World;
  c_schema : Schema;
  c_tasks : list (Future * Params);
  c_schema_updates : list TSchemaUpdate;
  c_row_counts : gmap string Z;
  c_next_future : nat;
  c_polls : nat;
}.

Definition set_c_world (w : World) (st : Coordinator) : Coordinator :=
  {| c_world := w; c_schema := c_schema st; c_tasks := c_tasks st;
     c_schema_updates := c_schema_updates st;
     c_row_counts := c_row_counts st; c_next_future := c_next_future st;
     c_polls := c_polls st |}.

Definition set_c_schema (s : Schema) (st : Coordinator) : Coordinator :=
  {| c_world := c_world st; c_schema := s; c_tasks := c_tasks st;
     c_schema_updates := c_schema_updates st;
     c_row_counts := c_row_counts st; c_next_future := c_next_future st;
     c_polls := c_polls st |}.

Definition set_c_tasks (t : list (Future * Params)) (st : Coordinator)
  : Coordinator :=
  {| c_world := c_world st; c_schema := c_schema st; c_tasks := t;
     c_schema_updates := c_schema_updates st;
     c_row_counts := c_row_counts st; c_next_future := c_next_future st;
     c_polls := c_polls st |}.

Definition set_c_schema_updates (u : list TSchemaUpdate) (st : Coordinator)
  : Coordinator :=
  {| c_world := c_world st; c_schema := c_schema st; c_tasks := c_tasks st;
     c_schema_updates := u;
     c_row_counts := c_row_counts st; c_next_future := c_next_future st;
     c_polls := c_polls st |}.

Definition set_c_row_counts (r : gmap string Z) (st : Coordinator)
  : Coordinator :=
  {| c_world := c_world st; c_schema := c_schema st; c_tasks := c_tasks st;
     c_schema_updates := c_schema_updates st;
     c_row_counts := r; c_next_future := c_next_future st;
     c_polls := c_polls st |}.

Definition set_c_next_future (n : nat) (st : Coordinator) : Coordinator :=
  {| c_world := c_world st; c_schema := c_schema st; c_tasks := c_tasks st;
     c_schema_updates := c_schema_updates st;
     c_row_counts := c_row_counts st; c_next_future := n;
     c_polls := c_polls st |}.

Definition set_c_polls (n : nat) (st : Coordinator) : Coordinator :=
  {| c_world := c_world st; c_schema := c_schema st; c_tasks := c_tasks st;
     c_schema_updates := c_schema_updates st;
     c_row_counts := c_row_counts st; c_next_future := c_next_future st;
     c_polls := n |}.

Definition init_coordinator (w : World) (schema : Schema) : Coordinator :=
  {| c_world := w; c_schema := schema; c_tasks := [];
     c_schema_updates := []; c_row_counts := ∅; c_next_future := 0;
     c_polls := 0 |}.

(** [tasks.remove(task)]: the first entry equal to [task]; futures are
    compared by identity. *)
Fixpoint remove_task (task : Future * Params) (tasks : list (Future * Params))
  : result (list (Future * Params)) :=
  match tasks with
  | [] => Raise ValueError
  | t :: tl =>
      if Nat.eqb (future_id t.1) (future_id task.1) then Ok tl
      else tl' ← remove_task task tl; Ok (t :: tl')
  end.

(** What a mapping function returns: [(schema_updates, row_counts)], and
    the schema object it was handed, as it has left it. *)
Abbreviation TMapFuncRV :=
  (list TSchemaUpdate * gmap string Z * Schema)%type.

Abbreviation TMapFuncType :=
  (Schema -> string -> list string -> St World TMapFuncRV).

Section Coordinator.

Variable env : Collaborators.
Variable pool : Executor.

(** [self.pool.submit(Normalize.w_normalize_files, *params)] *)
Definition submit (params : Params) : St Coordinator Future := fun st =>
  let '(r, w) :=
    w_normalize_files env (param_schema params) (param_load_id params)
      (param_files params) (c_world st) in
  (Ok {| future_id := c_next_future st; future_result := r |},
   set_c_next_future (S (c_next_future st)) (set_c_world w st)).

(** The [try] block of the gather loop (lines 212 to 219). *)
Definition absorb (result : TWorkerRV) : St Coordinator unit :=
  let '(updates, items, files, counts) := result in
  zoom c_schema set_c_schema (update_table updates);;
  modify (fun st =>
    set_c_schema_updates (c_schema_updates st ++ updates) st);;
  modify (fun st =>
    set_c_world
      (collector_update "Items" items
         (collector_update "Files" (Z.of_nat (length files)) (c_world st)))
      st);;
  modify (fun st =>
    set_c_row_counts (merge_row_count (c_row_counts st) counts) st).

(** The [except CannotCoerceColumnException] block (lines 221 to 231). *)
Definition retry (result : TWorkerRV) (params : Params)
  : St Coordinator unit :=
  let '(_, _, files, _) := result in
  for_each files (fun file => zoom c_world set_c_world (os_remove file));;
  schema_dict ← gets (fun st => to_dict (c_schema st));
  let params := {| param_schema := schema_dict;
                   param_load_id := param_load_id params;
                   param_files := param_files params |} in
  retry_pending ← submit params;
  modify (fun st => set_c_tasks (c_tasks st ++ [(retry_pending, params)]) st).

Definition on_conflict {A : Type} (h : St Coordinator A) (e : exn)
  : option (St Coordinator A) :=
  match e with
  | CannotCoerceColumnException => Some h
  | _ => None
  end.

(** One round of [for task in list(tasks)] (lines 208 to 233). *)
Definition gather_task (task : Future * Params) : St Coordinator unit :=
  let '(pending, params) := task in
  polls ← gets c_polls;
  if completes pool (future_id pending) polls then
    result ← lift (future_result pending);
    try_except (absorb result) (on_conflict (retry result params));;
    tasks ← gets c_tasks;
    tasks ← lift (remove_task task tasks);
    modify (set_c_tasks tasks)
  else mret tt.

(** The [while len(tasks) > 0] loop, followed for [rounds] scans; a loop
    still going after that is reported as [StillRunning]. *)
Fixpoint gather (rounds : nat) : St Coordinator unit :=
  tasks ← gets c_tasks;
  match tasks with
  | [] => mret tt
  | _ :: _ =>
      match rounds with
      | O => raise StillRunning
      | S rounds' =>
          modify (fun st => set_c_polls (S (c_polls st)) st);;
          for_each tasks gather_task;;
          gather rounds'
      end
  end.

Fixpoint submit_all (param_chunk : list Params)
  : St Coordinator (list (Future * Params)) :=
  match param_chunk with
  | [] => mret []
  | params :: rest =>
      pending ← submit params;
      tasks ← submit_all rest;
      mret ((pending, params) :: tasks)
  end.

Definition map_parallel_locals (rounds : nat) (load_id : string)
    (files : list string) : St Coordinator unit :=
  let workers := default 1%Z (_max_workers pool) in
  chunk_files ← lift (Group.group_worker_files files workers);
  schema_dict ← gets (fun st => to_dict (c_schema st));
  let param_chunk :=
    map (fun files => {| param_schema := schema_dict;
                         param_load_id := load_id;
                         param_files := files |}) chunk_files in
  tasks ← submit_all param_chunk;
  modify (set_c_tasks tasks);;
  gather rounds.

Definition map_parallel (rounds : nat) : TMapFuncType :=
  fun schema load_id files w =>
    let '(r, st) :=
      map_parallel_locals rounds load_id files (init_coordinator w schema) in
    (_ ← r; Ok (c_schema_updates st, c_row_counts st, c_schema st),
     c_world st).

Definition map_single : TMapFuncType := fun schema load_id files =>
  result ← w_normalize_files env (to_dict schema) load_id files;
  let '(updates, items, closed, counts) := result in
  let '(r, schema) := update_table updates schema in
  lift r;;
  modify (collector_update "Files" (Z.of_nat (length closed)));;
  modify (collector_update "Items" items);;
  mret (updates, counts, schema).

End Coordinator.

(** ** The run driver: [spool_files], [spool_schema_files], [run] *)

(** The calls the driver makes on its storages, on the signals module and
    on the mapping function. *)
Inductive driver_call : Type :=
  | ListFilesToNormalizeSorted
  | Now
  | CreateTempLoadPackage (load_id : string)
  | LoadSchema (schema_name : string)
  | MapFiles (load_id : string) (files : list string)
  | SaveSchema (schema_name : string)
  | SaveTempSchema (load_id : string)
  | SaveTempSchemaUpdates (load_id : string)
  | RaiseIfSignalled
  | CommitTempLoadPackage (load_id : string)
  | DeleteExtractedFiles (files : list string).

Global Instance driver_call_eq_dec : EqDecision driver_call.
Proof. solve_decision. Defined.

(** A [Normalize] instance.  [calls] is the record of the calls made so
    far, each with the exception it ended in, if any; [faults] says which
    call, counted from the first, is cut short by an exception coming from
    outside (a full disk, a signal). *)
Record Normalize : Type := {
  world : World;
  pool : Executor;
  _row_counts : gmap string Z;
  calls : list (driver_call * option exn);
  faults : nat -> option exn;
}.

Definition set_world (w : World) (self : Normalize) : Normalize :=
  {| world := w; pool := pool self; _row_counts := _row_counts self;
     calls := calls self; faults := faults self |}.

Definition set_pool (p : Executor) (self : Normalize) : Normalize :=
  {| world := world self; pool := p; _row_counts := _row_counts self;
     calls := calls self; faults := faults self |}.

Definition set_row_counts (r : gmap string Z) (self : Normalize) : Normalize :=
  {| world := world self; pool := pool self; _row_counts := r;
     calls := calls self; faults := faults self |}.

Definition log_call (c : driver_call) (o : option exn) (self : Normalize)
  : Normalize :=
  {| world := world self; pool := pool self; _row_counts := _row_counts self;
     calls := calls self ++ [(c, o)]; faults := faults self |}.

Definition outcome {A : Type} (r : result A) : option exn :=
  match r with
  | Ok _ => None
  | Raise e => Some e
  end.

(** A call out of the driver: cut short if [faults] says so, run on the
    world otherwise; recorded either way. *)
Definition external {A : Type} (c : driver_call) (body : St World A)
  : St Normalize A := fun self =>
  match faults self (length (calls self)) with
  | Some e => (Raise e, log_call c (Some e) self)
  | None =>
      let '(r, w) := body (world self) in
      (r, log_call c (outcome r) (set_world w self))
  end.

(** Modelled from the spec: the operations of the schema storage, of the
    load storage, of the normalize storage and of the signals module that
    the driver calls; none of them is in the sources at hand. *)
Definition load_schema (name : string) : St World Schema := fun w =>
  match stored_schemas w !! name with
  | Some schema => (Ok schema, w)
  | None => (Raise SchemaNotFoundError, w)
  end.

Definition save_schema (schema : Schema) : St World unit :=
  modify (fun w =>
    set_stored_schemas (<[schema_name schema := schema]> (stored_schemas w)) w).

Definition create_temp_load_package (load_id : string) : St World unit :=
  modify (fun w => set_temp (<[load_id := empty_package]> (temp w)) w).

Definition save_temp_schema (schema : Schema) (load_id : string)
  : St World unit :=
  modify (fun w =>
    let pk := default empty_package (temp w !! load_id) in
    set_temp (<[load_id :=
                  {| package_files := package_files pk;
                     package_schema := Some schema;
                     package_schema_updates := package_schema_updates pk |}]>
                (temp w)) w).

Definition save_temp_schema_updates (load_id : string)
    (merged : TSchemaUpdate) : St World unit :=
  modify (fun w =>
    let pk := default empty_package (temp w !! load_id) in
    set_temp (<[load_id :=
                  {| package_files := package_files pk;
                     package_schema := package_schema pk;
                     package_schema_updates := Some merged |}]>
                (temp w)) w).

Definition raise_if_signalled : St World unit := fun w =>
  if signalled w then (Raise SignalReceivedException, w) else (Ok tt, w).

(** The rename of [temp/<load_id>] to [processing/<load_id>]. *)
Definition commit_temp_load_package (load_id : string) : St World unit :=
  fun w =>
    match temp w !! load_id with
    | None => (Raise OSError, w)
    | Some pk =>
        (Ok tt,
         set_processing (<[load_id := pk]> (processing w))
           (set_temp (delete load_id (temp w)) w))
    end.

Definition delete_extracted_files (files : list string) : St World unit :=
  modify (fun w =>
    set_extracted (filter (fun f => f ∉ files) (extracted w)) w).

Definition list_files_to_normalize_sorted : St World (list string) :=
  gets (fun w => Py.sorted (extracted w)).

(** [str(pendulum.now().timestamp())]; time moves on between two
    readings. *)
Definition now_timestamp : St World string := fun w =>
  (Ok (pretty (clock w)), set_clock (clock w + 1) w).

(** The lazy sequence [group_by_schema(files)] yields: a group per run of
    files with the same schema name; the sequence breaks off with the
    exception of the first file name that does not parse, and the group
    being collected at that point is never handed out. *)
Fixpoint group_by_schema_from (current : option (string * list string))
    (files : list string) : list (result (string * list string)) :=
  match files with
  | [] =>
      match current with
      | Some group => [Ok group]
      | None => []
      end
  | f :: tl =>
      match parse_normalize_file_name f with
      | Raise e => [Raise e]
      | Ok parsed =>
          match current with
          | None =>
              group_by_schema_from (Some (parsed_schema_name parsed, [f])) tl
          | Some (k, g) =>
              if String.eqb k (parsed_schema_name parsed)
              then group_by_schema_from (Some (k, g ++ [f])) tl
              else Ok (k, g)
                   :: group_by_schema_from
                        (Some (parsed_schema_name parsed, [f])) tl
          end
      end
  end.

Definition group_by_schema (files : list string)
  : list (result (string * list string)) :=
  group_by_schema_from None files.

Record TRunMetrics : Type := {
  was_idle : bool;
  pending_items : Z;
}.

Section RunDriver.

Variable env : Collaborators.
(** how many scans of the task list the model follows [map_parallel] for *)
Variable rounds : nat.

Definition schema_not_found {A : Type} (h : St Normalize A) (e : exn)
  : option (St Normalize A) :=
  match e with
  | SchemaNotFoundError => Some h
  | _ => None
  end.

Definition load_or_create_schema (schema_name : string)
  : St Normalize Schema :=
  try_except
    (external (LoadSchema schema_name) (load_schema schema_name))
    (schema_not_found
       (mret {| schema_name := schema_name; schema_tables := ∅ |})).

(** [table.pop("x-normalizer", None)] on every table. *)
Definition pop_x_normalizer (schema : Schema) : Schema :=
  {| schema_name := schema_name schema;
     schema_tables :=
       (fun table => {| columns := columns table; x_normalizer := None |})
       <$> schema_tables schema |}.

Definition spool_files (schema_name load_id : string) (map_f : TMapFuncType)
    (files : list string) : St Normalize unit :=
  schema ← load_or_create_schema schema_name;
  '(schema_updates, row_counts, schema) ←
    external (MapFiles load_id files) (map_f schema load_id files);
  let schema := pop_x_normalizer schema in
  external (SaveSchema schema_name) (save_schema schema);;
  external (SaveTempSchema load_id) (save_temp_schema schema load_id);;
  external (SaveTempSchemaUpdates load_id)
    (save_temp_schema_updates load_id (merge_schema_updates schema_updates));;
  external RaiseIfSignalled raise_if_signalled;;
  external (CommitTempLoadPackage load_id)
    (commit_temp_load_package load_id);;
  external (DeleteExtractedFiles files) (delete_extracted_files files);;
  modify (set_row_counts row_counts).

Definition conflict {A : Type} (h : St Normalize A) (e : exn)
  : option (St Normalize A) :=
  match e with
  | CannotCoerceColumnException => Some h
  | _ => None
  end.

Definition spool_schema_files (load_id schema_name : string)
    (files : list string) : St Normalize string :=
  external (CreateTempLoadPackage load_id) (create_temp_load_package load_id);;
  self ← get;
  try_except
    (spool_files schema_name load_id (map_parallel env (pool self) rounds)
       files)
    (conflict
       (external (CreateTempLoadPackage load_id)
          (create_temp_load_package load_id);;
        spool_files schema_name load_id (map_single env) files));;
  mret load_id.

(** The body of [for schema_name, files_iter in group_by_schema(files)]. *)
Definition spool_group (group : result (string * list string))
  : St Normalize unit :=
  '(schema_name, schema_files) ← lift group;
  load_id ← external Now now_timestamp;
  modify (fun self =>
    set_world
      (collector_update "Items" 0
         (collector_update "Files" 0 (world self))) self);;
  spool_schema_files load_id schema_name schema_files;;
  mret tt.

Definition run (pool : option Executor) : St Normalize TRunMetrics :=
  modify (set_pool (default NullExecutor pool));;
  modify (set_row_counts ∅);;
  files ← external ListFilesToNormalizeSorted list_files_to_normalize_sorted;
  match files with
  | [] => mret {| was_idle := true; pending_items := 0 |}
  | _ :: _ =>
      for_each (group_by_schema files) spool_group;;
      pending ←
        external ListFilesToNormalizeSorted list_files_to_normalize_sorted;
      mret {| was_idle := false;
              pending_items := Z.of_nat (length pending) |}
  end.

Definition get_normalize_info : St Normalize (gmap string Z) :=
  gets _row_counts.

End RunDriver.

(** The order a spool keeps among its calls, checked along a record of
    calls: a commit comes after a signal check that returned, a deletion of
    extracted files after a commit of [load_id] that returned. *)
Fixpoint commit_protocol (load_id : string) (checked committed : bool)
    (log : list (driver_call * option exn)) : bool :=
  match log with
  | [] => true
  | (RaiseIfSignalled, None) :: tl => commit_protocol load_id true committed tl
  | (CommitTempLoadPackage l, o) :: tl =>
      checked
      && commit_protocol load_id checked
           (committed || (String.eqb l load_id && bool_decide (o = None))) tl
  | (DeleteExtractedFiles _, _) :: tl =>
      committed && commit_protocol load_id checked committed tl
  | _ :: tl => commit_protocol load_id checked committed tl
  end.

Definition no_commit_no_delete (log : list (driver_call * option exn)) : bool :=
  forallb (fun entry =>
             match entry.1 with
             | CommitTempLoadPackage _ | DeleteExtractedFiles _ => false
             | _ => true
             end) log.

(** ** Scenarios *)

(** A destination that prefers jsonl and also takes parquet; a batch of one
    jsonl file with two rows for table [t1] and one parquet file without
    rows for table [t2], which the schema already has. *)
Module Scenario.

Definition caps : DestinationCapabilities :=
  {| preferred_loader_file_format := Some "jsonl";
     preferred_staging_file_format := None;
     supported_loader_file_formats := Some ["jsonl"; "parquet"] |}.

Definition world0 : World :=
  {| destination_capabilities := caps; extracted := [];
     temp := {["L1" := empty_package]}; processing := ∅;
     stored_schemas := ∅; signalled := false; clock := 0;
     next_file_id := 0; collector := ∅ |}.

Definition two_rows (table_name : string)
  : list TSchemaUpdate * Z * gmap string Z :=
  ([[(table_name,
      [{| partial_name := table_name;
          partial_columns := [("a", "bigint")] |}])]],
   2%Z, {[table_name := 2%Z]}).

Definition env : Collaborators :=
  {| normalize_table_identifier := fun raw => raw;
     normalize_items := fun _ _ root_table_name schema =>
       if String.eqb root_table_name "t2" then Ok ([], 0%Z, ∅, schema)
       else Ok (two_rows root_table_name, schema) |}.

Definition stored_schema : TStoredSchema :=
  {| schema_name := "s";
     schema_tables := {["t2" := {| columns := {["a" := "bigint"]};
                                   x_normalizer := None |}]} |}.

Definition files : list string :=
  ["s.t1.jsonl.1.jsonl"; "s.t2.parquet.1.parquet"].

Definition worker_run : result TWorkerRV * Worker :=
  w_normalize_files_locals env "L1" files (init_worker world0 stored_schema).

End Scenario.

(** A coordinator in the middle of [map_parallel]: the authoritative
    schema already has [t.x] as [bigint], and the one task in the list has
    finished with [t.x] inferred as [text] and one output file. *)
Module Conflict.

Definition schema : Schema :=
  {| schema_name := "s";
     schema_tables := {["t" := {| columns := {["x" := "bigint"]};
                                  x_normalizer := None |}]} |}.

Definition world : World :=
  set_temp {["L1" := {| package_files := ["L1/t.0.jsonl"];
                        package_schema := None;
                        package_schema_updates := None |}]}
    (set_next_file_id 1 Scenario.world0).

Definition updates : list TSchemaUpdate :=
  [[("t", [{| partial_name := "t";
              partial_columns := [("x", "text")] |}])]].

Definition pending : Future :=
  {| future_id := 0;
     future_result := Ok (updates, 1%Z, ["L1/t.0.jsonl"], {["t" := 1%Z]}) |}.

Definition params : Params :=
  {| param_schema := {| schema_name := "s"; schema_tables := ∅ |};
     param_load_id := "L1";
     param_files := ["s.t.jsonl.1.jsonl"] |}.

Definition st : Coordinator :=
  {| c_world := world; c_schema := schema;
     c_tasks := [(pending, params)];
     c_schema_updates := []; c_row_counts := ∅;
     c_next_future := 1; c_polls := 1 |}.

End Conflict.

(** A load group of two files that cannot be normalized side by side:
    the rows of table [b] fit a schema that already has table [a], and
    conflict with one that has not.  Two parallel workers get one file
    each; a single worker gets both, [a] first. *)
Module Fallback.

Definition env : Collaborators :=
  {| normalize_table_identifier := fun raw => raw;
     normalize_items := fun _ _ root_table_name schema =>
       if String.eqb root_table_name "a" then
         Ok (Scenario.two_rows "a",
             (schema_update_table
                {| partial_name := "a";
                   partial_columns := [("a", "bigint")] |} schema).2)
       else if bool_decide (is_Some (schema_tables schema !! "a")) then
         Ok (Scenario.two_rows root_table_name, schema)
       else Raise CannotCoerceColumnException |}.

Definition files : list string :=
  ["s.a.jsonl.1.jsonl"; "s.b.jsonl.1.jsonl"].

Definition self : Normalize :=
  {| world := set_temp ∅ (set_extracted files Scenario.world0);
     pool := {| _max_workers := Some 2%Z; completes := fun _ _ => true |};
     _row_counts := ∅; calls := []; faults := fun _ => None |}.

Definition run : result string * Normalize :=
  spool_schema_files env 5 "L1" "s" files self.

End Fallback.

(** Two extracted files of two schemas, [s1] and [s2], each with two rows
    for one table, and stale row counts from an earlier run. *)
Module TwoGroups.

Definition self : Normalize :=
  {| world := set_temp ∅
                (set_extracted ["s2.b.jsonl.1.jsonl"; "s1.a.jsonl.1.jsonl"]
                   Scenario.world0);
     pool := NullExecutor; _row_counts := {["old" := 7%Z]};
     calls := []; faults := fun _ => None |}.

End TwoGroups.

(** ** What the mapping functions leave alone *)

(** The parts of the world a mapping function has no business with: the
    extracted files, the published packages, the schema storage, the
    signal flag and the clock. *)
Definition same_inputs (w w' : World) : Prop :=
  extracted w' = extracted w
  /\ processing w' = processing w
  /\ stored_schemas w' = stored_schemas w
  /\ signalled w' = signalled w
  /\ clock w' = clock w.

(** What a worker of the load [load_id] may do to the storages: add output
    files to the temp package [load_id] and draw file ids. *)
Definition worker_writes (load_id : string) (w w' : World) : Prop :=
  same_inputs w w'
  /\ (forall other, other <> load_id -> temp w' !! other = temp w !! other)
  /\ (exists new,
        package_files (default empty_package (temp w' !! load_id))
        = package_files (default empty_package (temp w !! load_id)) ++ new)
  /\ (next_file_id w <= next_file_id w')%Z.

Definition worker_writes_locals (load_id : string) (st st' : Worker) : Prop :=
  worker_writes load_id (worker_world st) (worker_world st').

Definition coordinator_same_inputs (st st' : Coordinator) : Prop :=
  same_inputs (c_world st) (c_world st').

(** The calls made between two states of a worker hold no
    [close_writers]. *)
Definition no_close_added (st st' : Worker) : Prop :=
  exists added,
    worker_calls st' = worker_calls st ++ added
    /\ Forall (fun c => is_close_writers c = false) added.

(** The tables that have a row count keep having one. *)
Definition row_counts_kept (st st' : Worker) : Prop :=
  dom (row_counts st) ⊆ dom (row_counts st').

(** ** What a run does to the extracted files *)


(** Between two states of the driver no extracted file has appeared. *)
Definition extracted_shrinks (self self' : Normalize) : Prop :=
  forall f, f ∈ extracted (world self') -> f ∈ extracted (world self).

(** ** The load storages a worker makes *)

(** [preferred_loader_file_format or preferred_staging_file_format] *)
Definition preferred_format (caps : DestinationCapabilities) : option string :=
  py_or (preferred_loader_file_format caps)
        (preferred_staging_file_format caps).

(** Between two states of a worker the preferred formats have stayed, and
    a load storage that has appeared is filed under [arrow] or under the
    preferred format. *)
Definition storages_added (st st' : Worker) : Prop :=
  preferred_loader_file_format (worker_caps st')
  = preferred_loader_file_format (worker_caps st)
  /\ preferred_staging_file_format (worker_caps st')
     = preferred_staging_file_format (worker_caps st)
  /\ forall k,
       is_Some (load_storages st' !! k) ->
       is_Some (load_storages st !! k)
       \/ k = Some "arrow"
       \/ k = preferred_format (worker_caps st).

(** * Properties *)

(** ** Python list primitives *)

Section PyFacts.

Lemma insert_sorted_perm (x : string) (l : list string) :
  Py.insert_sorted x l ≡ₚ x :: l.
Proof.
  induction l as [|y tl IH]; simpl; [done|].
  destruct (String.leb x y); [done|].
  rewrite IH. apply perm_swap.
Qed.

Lemma sorted_perm (l : list string) : Py.sorted l ≡ₚ l.
Proof.
  induction l as [|x tl IH]; simpl; [done|].
  by rewrite insert_sorted_perm, IH.
Qed.

Lemma sorted_length (l : list string) : length (Py.sorted l) = length l.
Proof. by rewrite sorted_perm. Qed.

Lemma insert_sorted_Sorted (x : string) (l : list string) :
  Sorted str_le l -> Sorted str_le (Py.insert_sorted x l).
Proof.
  induction l as [|y tl IH]; simpl; intros Hs.
  - repeat constructor.
  - destruct (String.leb x y) eqn:Hxy.
    + constructor; [done|]. by constructor.
    + apply Sorted_inv in Hs as [Htl Hhd].
      constructor; [by apply IH|].
      assert (Hyx : str_le y x).
      { destruct (String.leb_total x y) as [H|H]; [congruence|done]. }
      destruct tl as [|z tl']; simpl.
      * by constructor.
      * destruct (String.leb x z); constructor; [done|].
        by apply HdRel_inv in Hhd.
Qed.

Lemma sorted_Sorted (l : list string) : Sorted str_le (Py.sorted l).
Proof.
  induction l as [|x tl IH]; simpl; [constructor|].
  by apply insert_sorted_Sorted.
Qed.

Lemma pop_snoc {A : Type} (l : list A) (x : A) :
  Py.pop (l ++ [x]) = Ok (x, l).
Proof.
  induction l as [|y tl IH]; simpl; [done|].
  rewrite IH. by destruct tl.
Qed.

Lemma index_from_end {A : Type} (l : list A) (k : Z) :
  (1 <= k <= Z.of_nat (length l))%Z ->
  Py.index l (- k) = Ok (length l - Z.to_nat k)%nat.
Proof.
  intros Hk. unfold Py.index.
  destruct (Z.leb_spec 0 (- k)); [lia|].
  destruct (Z.leb_spec 0 (Z.of_nat (length l) + - k)); [|lia].
  f_equal. lia.
Qed.

Lemma enumerate_from_length {A : Type} (k : Z) (l : list A) :
  length (Py.enumerate_from k l) = length l.
Proof. revert k. induction l; intros; simpl; auto. Qed.

End PyFacts.

(** ** The partition computed by [group_worker_files] *)

(** *** Small runs of [group_worker_files] *)

Example group_5_files_3_workers :
  Group.group_worker_files ["e"; "b"; "a"; "d"; "c"] 3
  = Ok [["a"]; ["b"; "d"]; ["c"; "e"]].
Proof. vm_compute. reflexivity. Qed.

Example group_8_files_3_workers :
  Group.group_worker_files ["a"; "b"; "c"; "d"; "e"; "f"; "g"; "h"] 3
  = Ok [["a"; "b"]; ["c"; "d"; "g"]; ["e"; "f"; "h"]].
Proof. vm_compute. reflexivity. Qed.

Example group_1_file_100_workers :
  Group.group_worker_files ["f001"] 100 = Ok [["f001"]].
Proof. vm_compute. reflexivity. Qed.

Example group_7_files_4_workers :
  Group.group_worker_files ["a"; "b"; "c"; "d"; "e"; "f"; "g"] 4
  = Ok [["a"]; ["b"]; ["c"; "f"; "e"]; ["d"; "g"]].
Proof. vm_compute. reflexivity. Qed.

Section GroupFacts.

Lemma concat_alter_snoc (l : list (list string)) (i : nat) (x : string) :
  (i < length l)%nat ->
  concat (alter (fun chunk => chunk ++ [x]) i l) ≡ₚ x :: concat l.
Proof.
  revert i. induction l as [|c tl IH]; intros i Hi; simpl in *; [lia|].
  destruct i as [|i]; simpl.
  - rewrite <- app_assoc. simpl.
    by rewrite <- Permutation_middle.
  - change (list_alter ?f ?j ?l) with (alter f j l).
    rewrite IH by lia. by rewrite Permutation_middle.
Qed.

(** One pass of the inner loop: every file of the popped chunk lands in
    one of the chunks that stay, none is lost, and the chunks still to be
    popped are left alone. *)
Lemma distribute_ok (xs : list string) :
  forall (k l_idx rem : Z) (idx : option Z) (pre tl : list (list string)),
    (0 <= k)%Z -> (0 <= l_idx)%Z ->
    (Z.of_nat (length tl) < l_idx + k + rem)%Z ->
    (l_idx + k + Z.of_nat (length xs) + rem
       <= Z.of_nat (length pre) + Z.of_nat (length tl) + 1)%Z ->
    exists pre',
      Group.distribute (Py.enumerate_from k xs) l_idx rem idx (pre ++ tl)
        = Ok (match xs with
              | [] => idx
              | _ => Some (k + Z.of_nat (length xs) - 1)%Z
              end, pre' ++ tl)
      /\ length pre' = length pre
      /\ concat pre' ≡ₚ xs ++ concat pre.
Proof.
  induction xs as [|x xs IH]; intros k l_idx rem idx pre tl Hk Hl Hlo Hhi.
  - exists pre. simpl. done.
  - simpl in Hhi. simpl Py.enumerate_from. cbn [Group.distribute].
    replace (- l_idx - k - rem)%Z with (- (l_idx + k + rem))%Z by lia.
    rewrite index_from_end by (rewrite length_app; lia).
    cbn [mbind result_bind].
    set (i := (length (pre ++ tl) - Z.to_nat (l_idx + k + rem))%nat).
    assert (Hi : (i < length pre)%nat).
    { subst i. rewrite length_app. lia. }
    rewrite alter_app_l by done.
    destruct (IH (k + 1)%Z l_idx rem (Some k)
                (alter (fun chunk => chunk ++ [x]) i pre) tl)
      as (pre' & Hrun & Hlen & Hperm); try lia.
    { rewrite length_alter. lia. }
    exists pre'. split; [|split].
    + rewrite Hrun. f_equal. f_equal.
      destruct xs; simpl; f_equal; lia.
    + by rewrite Hlen, length_alter.
    + rewrite Hperm, concat_alter_snoc by done.
      simpl. symmetry. apply Permutation_middle.
Qed.

(** The [while] loop: started on [pre ++ tail] with as many rounds as
    [tail] has chunks, it ends without an exception and folds every file
    of [tail] into [pre]. *)
Lemma redistribute_ok (tail : list (list string)) :
  forall (pre : list (list string)) (l_idx : Z) (idx : option Z),
    Forall (fun chunk => chunk <> []) tail ->
    (0 <= l_idx)%Z ->
    (l_idx + Z.of_nat (length (concat tail)) <= Z.of_nat (length pre))%Z ->
    exists res,
      Group.redistribute (length tail) l_idx idx (pre ++ tail) = Ok res
      /\ length res = length pre
      /\ concat res ≡ₚ concat (pre ++ tail).
Proof.
  induction tail as [|last tl IH] using rev_ind;
    intros pre l_idx idx Hne Hl Hsum.
  - exists pre. simpl. by rewrite app_nil_r.
  - apply Forall_app in Hne as [Hne Hlast].
    apply Forall_inv in Hlast.
    rewrite concat_app, length_app in Hsum. simpl in Hsum.
    rewrite app_nil_r in Hsum.
    rewrite length_app. simpl length.
    replace (length tl + 1)%nat with (S (length tl)) by lia.
    cbn [Group.redistribute].
    rewrite app_assoc, pop_snoc. cbn [mbind result_bind].
    destruct (distribute_ok (rev last) 0 l_idx (Z.of_nat (S (length tl)))
                idx pre tl) as (pre' & Hrun & Hlen & Hperm);
      try (rewrite ?length_rev; lia).
    unfold Py.enumerate. rewrite Hrun. cbn [mbind result_bind].
    destruct (rev last) as [|y ys] eqn:Hrev.
    { apply (f_equal (@rev string)) in Hrev.
      rewrite rev_involutive in Hrev. done. }
    rewrite <- Hrev in *. clear Hrev y ys.
    rewrite length_rev in *.
    replace (0 + Z.of_nat (length last) - 1 + 1)%Z
      with (Z.of_nat (length last)) by lia.
    destruct (IH pre' (Z.of_nat (length last))
                (Some (0 + Z.of_nat (length last) - 1)%Z))
      as (res & Hres & Hrlen & Hrperm); try done; try lia.
    exists res. split; [done|]. split; [lia|].
    rewrite Hrperm, !concat_app, Hperm. simpl. rewrite app_nil_r.
    rewrite <- Permutation_rev.
    rewrite (Permutation_app_comm last), <- !app_assoc.
    apply Permutation_app_head, Permutation_app_comm.
Qed.

End GroupFacts.

Section ChunkFacts.

Context {A : Type}.
Implicit Types (seq : list A) (fuel n m : nat).

Lemma chunks_from_concat fuel : forall seq n,
  (1 <= n)%nat -> (length seq <= fuel)%nat ->
  concat (Group.chunks_from fuel seq n) = seq.
Proof.
  induction fuel as [|fuel IH]; intros seq n Hn Hlen.
  - destruct seq; simpl in *; [done|lia].
  - destruct seq as [|x xs]; [done|].
    cbn [Group.chunks_from concat].
    rewrite IH; [apply take_drop|done|].
    rewrite length_drop. simpl in *. lia.
Qed.

Lemma chunks_from_nonempty fuel : forall seq n,
  (1 <= n)%nat ->
  Forall (fun chunk => chunk <> []) (Group.chunks_from fuel seq n).
Proof.
  induction fuel as [|fuel IH]; intros seq n Hn; [by destruct seq|].
  destruct seq as [|x xs]; [constructor|].
  cbn [Group.chunks_from]. constructor; [|by apply IH].
  destruct n; [lia|done].
Qed.

(** Past the first [m] chunks, what is left holds the files from position
    [m * n] on. *)
Lemma chunks_from_drop m : forall fuel seq n,
  (1 <= n)%nat -> (length seq <= fuel)%nat ->
  (m < length (Group.chunks_from fuel seq n))%nat ->
  (m * n < length seq)%nat
  /\ length (concat (drop m (Group.chunks_from fuel seq n)))
     = (length seq - m * n)%nat.
Proof.
  induction m as [|m IH]; intros fuel seq n Hn Hlen Hm.
  - rewrite drop_0, chunks_from_concat by done.
    split; [|lia].
    destruct fuel, seq; simpl in *; lia.
  - destruct fuel as [|fuel]; [destruct seq; simpl in Hm; lia|].
    destruct seq as [|x xs]; [simpl in Hm; lia|].
    cbn [Group.chunks_from] in *. cbn [length] in Hm.
    destruct (IH fuel (drop n (x :: xs)) n) as [Hlt Hrest]; [done| |lia|].
    { rewrite length_drop. simpl in *. lia. }
    rewrite length_drop in Hlt, Hrest.
    rewrite skipn_cons, Hrest. lia.
Qed.

End ChunkFacts.

Lemma concat_Permutation {A : Type} (l k : list (list A)) :
  l ≡ₚ k -> concat l ≡ₚ concat k.
Proof.
  induction 1 as [|x l k _ IH|x y l|l k j _ IH1 _ IH2]; simpl.
  - done.
  - by rewrite IH.
  - rewrite !app_assoc. by rewrite (Permutation_app_comm y x).
  - by rewrite IH1.
Qed.

(** C1. For every list of files and every worker count [n >= 1],
    [group_worker_files] returns (it raises nothing) and what it returns is
    an exact partition of the input: the batches concatenated, in the order
    returned or in any other order, are a permutation of the input list, so
    no file is dropped and none is duplicated; this covers the runs in
    which the redistribution loop is entered. *)
Theorem group_worker_files_partition (files : list string) (n : Z) :
  (1 <= n)%Z ->
  exists batches,
    Group.group_worker_files files n = Ok batches
    /\ concat batches ≡ₚ files
    /\ forall batches', batches' ≡ₚ batches -> concat batches' ≡ₚ files.
Proof.
  intros Hn.
  assert (Hgoal : exists batches,
    Group.group_worker_files files n = Ok batches /\ concat batches ≡ₚ files).
  2:{ destruct Hgoal as (batches & Hrun & Hperm).
      exists batches. repeat split; [done..|].
      intros batches' Hb. by rewrite (concat_Permutation _ _ Hb). }
  unfold Group.group_worker_files.
  destruct (Z.eqb_spec n 0) as [|_]; [lia|].
  set (sfiles := Py.sorted files).
  set (L := length sfiles).
  set (c := Z.to_nat (Z.max (Z.of_nat L / n) 1)).
  assert (Hc : (1 <= c)%nat) by (subst c; lia).
  unfold Group.chunks. destruct c as [|c'] eqn:Ec; [lia|].
  rewrite <- Ec in *. clear Ec c'. cbn [mbind result_bind].
  set (cs := Group.chunks_from (length sfiles) sfiles c).
  assert (Hcat : concat cs = sfiles) by (by apply chunks_from_concat).
  destruct (Z_le_gt_dec (Z.of_nat (length cs) - n) 0) as [Hrem|Hrem].
  - replace (Z.to_nat (Z.of_nat (length cs) - n)) with 0%nat by lia.
    exists cs. split; [done|]. rewrite Hcat. apply sorted_perm.
  - set (N := Z.to_nat n).
    assert (HN : (N < length cs)%nat) by lia.
    destruct (chunks_from_drop N (length sfiles) sfiles c) as [Hlt Hrest];
      [done..|].
    fold cs in Hrest. fold L in Hlt, Hrest.
    assert (Hfit : (L - N * c <= N)%nat).
    { destruct (Z_lt_le_dec (Z.of_nat L / n) 1) as [Hsmall|Hbig].
      - assert (Z.of_nat L / n = 0)%Z as Hz.
        { pose proof (Z.div_pos (Z.of_nat L) n). lia. }
        apply Z.div_small_iff in Hz; [|lia]. subst c. lia.
      - assert (Z.of_nat c = Z.of_nat L / n)%Z as Hcz by (subst c; lia).
        pose proof (Z.div_mod (Z.of_nat L) n ltac:(lia)) as Hdm.
        pose proof (Z.mod_pos_bound (Z.of_nat L) n ltac:(lia)) as Hmb.
        rewrite <- Hcz in Hdm. subst N. nia. }
    destruct (redistribute_ok (drop N cs) (take N cs) 0 None)
      as (res & Hres & _ & Hperm).
    + apply Forall_drop. by apply chunks_from_nonempty.
    + done.
    + rewrite Hrest, length_take. lia.
    + rewrite take_drop, length_drop in Hres.
      replace (Z.to_nat (Z.of_nat (length cs) - n))
        with (length cs - N)%nat by lia.
      exists res. split; [done|].
      rewrite Hperm, take_drop, Hcat. apply sorted_perm.
Qed.

Lemma group_worker_files_partition_witness :
  (1 <= 4)%Z /\
  exists batches,
    Group.group_worker_files ["a"; "b"; "c"; "d"; "e"; "f"; "g"] 4 = Ok batches
    /\ concat batches ≡ₚ ["a"; "b"; "c"; "d"; "e"; "f"; "g"]
    /\ forall batches',
         batches' ≡ₚ batches ->
         concat batches' ≡ₚ ["a"; "b"; "c"; "d"; "e"; "f"; "g"].
Proof.
  split; [lia|].
  apply (group_worker_files_partition ["a"; "b"; "c"; "d"; "e"; "f"; "g"] 4).
  lia.
Defined.

(** C9. Every batch returned by [group_worker_files] is sorted ascending by
    file name.  The code breaks this: seven files for four workers give
    three surplus chunks, the third round of the redistribution loop
    appends into a chunk that the second round has already extended
    ([l_idx] is overwritten with the size of the last popped chunk, not
    accumulated), and the batch [c; f; e] comes out unsorted. *)
Theorem group_worker_files_unsorted_batch :
  Py.sorted ["a"; "b"; "c"; "d"; "e"; "f"; "g"]
    = ["a"; "b"; "c"; "d"; "e"; "f"; "g"]
  /\ Group.group_worker_files ["a"; "b"; "c"; "d"; "e"; "f"; "g"] 4
     = Ok [["a"]; ["b"]; ["c"; "f"; "e"]; ["d"; "g"]]
  /\ ~ Sorted str_le ["c"; "f"; "e"].
Proof.
  split; [by vm_compute|]. split; [by vm_compute|].
  intros Hs. apply Sorted_inv in Hs as [Hs _].
  apply Sorted_inv in Hs as [_ Hhd].
  apply HdRel_inv in Hhd. by vm_compute in Hhd.
Qed.

(** ** The worker and its load storages *)

(** C6. A root table that is named by the batch's files but gets no rows
    has one empty file written for it if the schema has the table, and that
    file goes through the default load storage, the one keyed to the
    preferred loader format.  The code breaks the last part: the loop
    rebinds [load_storage] to the storage of the file just processed, so
    after a parquet file the empty job of [t2] is written by the [arrow]
    storage, not by the [jsonl] storage bound at line 107. *)
Theorem empty_file_written_by_last_storage :
  preferred_loader_file_format Scenario.caps = Some "jsonl"
  /\ worker_calls Scenario.worker_run.2
     = [NewLoadStorage (Some "jsonl");
        WriteDataItems (Some "jsonl") "s.t1.jsonl.1.jsonl";
        NewLoadStorage (Some "arrow");
        WriteDataItems (Some "arrow") "s.t2.parquet.1.parquet";
        WriteEmptyFile (Some "arrow") "t2";
        CloseWriters (Some "arrow")]
  /\ (WriteEmptyFile (Some "jsonl") "t2" ∉ worker_calls Scenario.worker_run.2)
  /\ (package_files <$> temp (worker_world Scenario.worker_run.2) !! "L1")
     = Some ["L1/t2.0.arrow"].
Proof.
  split; [done|].
  assert (Hcalls : worker_calls Scenario.worker_run.2
     = [NewLoadStorage (Some "jsonl");
        WriteDataItems (Some "jsonl") "s.t1.jsonl.1.jsonl";
        NewLoadStorage (Some "arrow");
        WriteDataItems (Some "arrow") "s.t2.parquet.1.parquet";
        WriteEmptyFile (Some "arrow") "t2";
        CloseWriters (Some "arrow")]) by (by vm_compute).
  split; [done|]. split; [|by vm_compute].
  rewrite Hcalls. intros Hin.
  repeat (apply elem_of_cons in Hin as [Hin|Hin]; [discriminate|]).
  by apply elem_of_nil in Hin.
Qed.

(** C7. On every exit path of [w_normalize_files] the writers of every
    load storage the task has made are finalized.  The code breaks this:
    [finally] calls [close_writers] on the one storage [load_storage] is
    bound to at that moment.  In the run below the [jsonl] storage has
    taken the two rows of [t1]; it is never closed, its writer stays open,
    and its file is neither in the temp package nor in the list of closed
    files the worker returns. *)
Theorem close_writers_misses_storage :
  dom (load_storages Scenario.worker_run.2)
    = ({[Some "jsonl"; Some "arrow"]} : gset (option string))
  /\ List.filter is_close_writers (worker_calls Scenario.worker_run.2)
     = [CloseWriters (Some "arrow")]
  /\ (open_writers <$> load_storages Scenario.worker_run.2 !! Some "jsonl")
     = Some ["t1"]
  /\ (exists updates counts,
        Scenario.worker_run.1 = Ok (updates, 2%Z, ["L1/t2.0.arrow"], counts))
  /\ (package_files <$> temp (worker_world Scenario.worker_run.2) !! "L1")
     = Some ["L1/t2.0.arrow"].
Proof.
  split; [by vm_compute|].
  split; [by vm_compute|].
  split; [by vm_compute|].
  split; [|by vm_compute].
  destruct Scenario.worker_run.1 as [[[[u i] f] c]|e] eqn:Hr;
    vm_compute in Hr; [|discriminate].
  injection Hr as <- <- <- <-. eauto.
Qed.

(** ** Methods that respect a relation *)

Section Respects.

Context {S : Type} (R : S -> S -> Prop) `{!PreOrder R}.

Lemma respects_ret {A : Type} (a : A) : respects R (mret a : St S A).
Proof. intros s. simpl. reflexivity. Qed.

Lemma respects_bind {A B : Type} (m : St S A) (k : A -> St S B) :
  respects R m -> (forall a, respects R (k a)) -> respects R (m ≫= k).
Proof.
  intros Hm Hk s. unfold mbind, St_bind.
  specialize (Hm s). destruct (m s) as [[a|e] s']; simpl in *; [|done].
  etransitivity; [exact Hm|apply Hk].
Qed.

Lemma respects_get : respects R (get : St S S).
Proof. intros s. simpl. reflexivity. Qed.

Lemma respects_gets {A : Type} (f : S -> A) : respects R (gets f).
Proof. intros s. simpl. reflexivity. Qed.

Lemma respects_lift {A : Type} (r : result A) : respects R (lift r : St S A).
Proof. intros s. simpl. reflexivity. Qed.

Lemma respects_raise {A : Type} (e : exn) : respects R (raise e : St S A).
Proof. intros s. simpl. reflexivity. Qed.

Lemma respects_modify (f : S -> S) :
  (forall s, R s (f s)) -> respects R (modify f).
Proof. intros Hf s. apply Hf. Qed.


Lemma respects_try_finally {A : Type} (body : St S A) (final : St S unit) :
  respects R body -> respects R final -> respects R (try_finally body final).
Proof.
  intros Hb Hf s. unfold try_finally.
  specialize (Hb s). destruct (body s) as [r s']; simpl in *.
  specialize (Hf s'). destruct (final s') as [[[]|e] s'']; simpl in *;
    by etransitivity.
Qed.

Lemma respects_for_each {A : Type} (l : list A) (body : A -> St S unit) :
  (forall x, respects R (body x)) -> respects R (for_each l body).
Proof.
  intros Hb. induction l as [|x tl IH]; simpl.
  - apply respects_ret.
  - apply respects_bind; [apply Hb|by intros _].
Qed.

End Respects.

Ltac respects_step :=
  lazymatch goal with
  | |- respects _ (mret _) => apply respects_ret
  | |- respects _ (_ ≫= _) => apply respects_bind
  | |- respects _ get => apply respects_get
  | |- respects _ (gets _) => apply respects_gets
  | |- respects _ (lift _) => apply respects_lift
  | |- respects _ (raise _) => apply respects_raise
  | |- respects _ (try_finally _ _) => apply respects_try_finally
  | |- respects _ (for_each _ _) => apply respects_for_each
  | |- respects _ (match ?x with _ => _ end) => destruct x
  | |- forall _, _ => intro
  end.

(** ** What a worker does to the destination capabilities *)

Section CapsFacts.

Global Instance caps_grow_preorder : PreOrder caps_grow.
Proof.
  split.
  - intros c. repeat split; by left.
  - intros c1 c2 c3 (Hl1 & Hs1 & H1) (Hl2 & Hs2 & H2).
    split; [congruence|]. split; [congruence|].
    destruct H1 as [H1|(l & k & Hc1 & Hin & Hc2)].
    + destruct H2 as [H2|(l & k & Hc2 & Hin & Hc3)].
      * left. congruence.
      * right. exists l, k. rewrite <- H1. done.
    + destruct H2 as [H2|(l' & k' & Hc2' & Hin' & Hc3)].
      * right. exists l, k. rewrite H2. done.
      * right. exists l, (k + k')%nat.
        rewrite Hc2 in Hc2'. injection Hc2' as <-.
        by rewrite replicate_add, app_assoc.
Qed.

Global Instance worker_caps_grow_preorder : PreOrder worker_caps_grow.
Proof.
  split.
  - intros st. unfold worker_caps_grow. reflexivity.
  - intros a b c Hab Hbc. unfold worker_caps_grow in *. by etransitivity.
Qed.

End CapsFacts.

Section WorkerCaps.

Variable env : Collaborators.

Lemma close_all_capabilities load_id fmt tables : forall closed w,
  destination_capabilities (close_all load_id fmt tables closed w).2
  = destination_capabilities w.
Proof.
  induction tables as [|t tl IH]; intros closed w; simpl; [done|].
  by rewrite IH.
Qed.

Lemma same_caps_grow (st st' : Worker) :
  worker_caps st' = worker_caps st -> worker_caps_grow st st'.
Proof.
  intros H. unfold worker_caps_grow. rewrite H. reflexivity.
Qed.

End WorkerCaps.

Section GetLoadStorage.

Variable env : Collaborators.

Lemma formats_of_supported_or_empty caps :
  formats_of (supported_or_empty caps) caps
  = default [] (supported_loader_file_formats caps).
Proof.
  unfold supported_or_empty.
  destruct (supported_loader_file_formats caps) as [[|x l]|] eqn:E;
    simpl; rewrite ?E; done.
Qed.

Lemma get_load_storage_eq (file_format : option string) (st : Worker) :
  let caps := worker_caps st in
  let parquet_ok :=
    bool_decide (file_format = Some "parquet")
    && bool_decide ("parquet" ∈ default [] (supported_loader_file_formats caps)) in
  let key := selected_write_format caps file_format in
  let st1 := if parquet_ok then append_arrow st else st in
  _get_load_storage file_format st
  = (Ok key,
     match load_storages st !! key with
     | Some _ => st1
     | None =>
         log_worker_call (NewLoadStorage key)
           (set_load_storages
              (<[key := new_load_storage false key (supported_or_empty caps)]>
                 (load_storages st1)) st1)
     end).
Proof.
  intros caps parquet_ok key st1.
  unfold _get_load_storage, mbind, St_bind, gets.
  fold (worker_caps st). fold caps.
  rewrite formats_of_supported_or_empty.
  subst key parquet_ok st1. unfold selected_write_format.
  assert (Happ : forall st, append_format CapabilitiesList "arrow" st
                            = (Ok CapabilitiesList, append_arrow st)) by done.
  destruct (bool_decide (file_format = Some "parquet")); simpl.
  - destruct (bool_decide ("parquet" ∈ default [] (supported_loader_file_formats caps))) eqn:Hin; simpl.
    + apply bool_decide_eq_true in Hin.
      assert (Hsup : supported_or_empty caps = CapabilitiesList).
      { unfold supported_or_empty.
        destruct (supported_loader_file_formats caps) as [[|x l]|];
          simpl in Hin; [by apply elem_of_nil in Hin|done
                        |by apply elem_of_nil in Hin]. }
      rewrite Hsup, Happ. simpl.
      replace (load_storages (append_arrow st)) with (load_storages st) by done.
      by destruct (load_storages st !! Some "arrow").
    + unfold py_or.
      destruct (preferred_loader_file_format caps) as [f|];
        [destruct (String.eqb f "")|]; by destruct (load_storages st !! _).
  - unfold py_or.
    destruct (preferred_loader_file_format caps) as [f|];
      [destruct (String.eqb f "")|]; by destruct (load_storages st !! _).
Qed.


Lemma append_arrow_caps_grow (st : Worker) :
  "parquet" ∈ default [] (supported_loader_file_formats (worker_caps st)) ->
  worker_caps_grow st (append_arrow st).
Proof.
  intros Hin. unfold worker_caps_grow, worker_caps in *. simpl.
  split; [done|]. split; [done|]. right.
  destruct (supported_loader_file_formats
              (destination_capabilities (worker_world st))) as [l|];
    simpl in *; [|by apply elem_of_nil in Hin].
  by exists l, 1%nat.
Qed.

Lemma get_load_storage_caps (file_format : option string) :
  respects worker_caps_grow (_get_load_storage file_format).
Proof.
  intros st. rewrite get_load_storage_eq. simpl.
  assert (Hst1 : worker_caps_grow st
    (if bool_decide (file_format = Some "parquet")
        && bool_decide ("parquet" ∈ default []
             (supported_loader_file_formats (worker_caps st)))
     then append_arrow st else st)).
  { destruct (bool_decide (file_format = Some "parquet")); simpl;
      [|reflexivity].
    destruct (bool_decide _) eqn:Hin; [|reflexivity].
    apply append_arrow_caps_grow. by apply bool_decide_eq_true in Hin. }
  by destruct (load_storages st !! _).
Qed.

Ltac same_caps := intros; apply same_caps_grow; reflexivity.

Lemma get_items_normalizer_caps (file_format : string) :
  respects worker_caps_grow (_get_items_normalizer file_format).
Proof.
  unfold _get_items_normalizer.
  apply respects_bind; [apply _|apply get_load_storage_caps|].
  repeat respects_step; try apply _.
  all: try (apply respects_modify; same_caps).
Qed.

Lemma call_normalizer_caps normalizer file root_table_name :
  respects worker_caps_grow
    (call_normalizer env normalizer file root_table_name).
Proof.
  unfold call_normalizer.
  repeat respects_step; try apply _.
  all: try (apply respects_modify; same_caps).
Qed.

Lemma close_writers_caps ref load_id :
  respects worker_caps_grow (close_writers ref load_id).
Proof.
  apply respects_modify. intros st. apply same_caps_grow.
  cbn [log_worker_call load_storages].
  destruct (load_storages st !! ref) as [storage|]; [|done].
  destruct (close_all _ _ _ _ _) as [closed w] eqn:Hc.
  unfold worker_caps. simpl.
  change w with (closed, w).2. rewrite <- Hc.
  apply close_all_capabilities.
Qed.

Lemma normalize_file_caps file :
  respects worker_caps_grow (normalize_file env file).
Proof.
  unfold normalize_file.
  repeat first
    [ apply get_items_normalizer_caps
    | apply call_normalizer_caps
    | apply respects_modify; same_caps
    | respects_step ]; apply _.
Qed.

Lemma write_empty_jobs_caps :
  respects worker_caps_grow write_empty_jobs.
Proof.
  unfold write_empty_jobs, write_empty_file.
  repeat first
    [ apply respects_modify; same_caps
    | respects_step ]; apply _.
Qed.

Lemma w_normalize_files_locals_caps load_id files :
  respects worker_caps_grow (w_normalize_files_locals env load_id files).
Proof.
  unfold w_normalize_files_locals.
  repeat first
    [ apply get_load_storage_caps
    | apply normalize_file_caps
    | apply write_empty_jobs_caps
    | apply close_writers_caps
    | apply respects_modify; same_caps
    | respects_step ]; apply _.
Qed.

End GetLoadStorage.

(** C8, the claim as stated: a run of [w_normalize_files] leaves the
    destination capabilities as they were.  It does not: in the scenario
    run the parquet file makes [_get_load_storage] append [arrow] to the
    capabilities' own list of supported formats. *)
Lemma w_normalize_files_mutates_capabilities :
  supported_loader_file_formats
    (destination_capabilities
       (w_normalize_files Scenario.env Scenario.stored_schema "L1"
          Scenario.files Scenario.world0).2)
  = Some ["jsonl"; "parquet"; "arrow"]
  /\ destination_capabilities
       (w_normalize_files Scenario.env Scenario.stored_schema "L1"
          Scenario.files Scenario.world0).2
     <> destination_capabilities Scenario.world0.
Proof.
  assert (H : supported_loader_file_formats
    (destination_capabilities
       (w_normalize_files Scenario.env Scenario.stored_schema "L1"
          Scenario.files Scenario.world0).2)
    = Some ["jsonl"; "parquet"; "arrow"]) by (by vm_compute).
  split; [done|].
  intros Heq. rewrite Heq in H. discriminate H.
Qed.

(** C8, amended.  A run of [w_normalize_files], however it ends, leaves
    both preferred formats of the destination capabilities unchanged; the
    list of supported loader formats is unchanged too unless it holds
    parquet, in which case the run may have appended [arrow] entries to it
    and has changed nothing else in it. *)
Theorem w_normalize_files_capabilities (env : Collaborators)
    (stored_schema : TStoredSchema) (load_id : string) (files : list string)
    (w : World) :
  let c := destination_capabilities w in
  let c' := destination_capabilities
              (w_normalize_files env stored_schema load_id files w).2 in
  preferred_loader_file_format c' = preferred_loader_file_format c
  /\ preferred_staging_file_format c' = preferred_staging_file_format c
  /\ (supported_loader_file_formats c' = supported_loader_file_formats c
      \/ exists l k,
           supported_loader_file_formats c = Some l
           /\ "parquet" ∈ l
           /\ supported_loader_file_formats c' = Some (l ++ replicate k "arrow"))
  /\ ("parquet" ∉ default [] (supported_loader_file_formats c) ->
      supported_loader_file_formats c' = supported_loader_file_formats c).
Proof.
  intros c c'.
  pose proof (w_normalize_files_locals_caps env load_id files
                (init_worker w stored_schema)) as H.
  unfold worker_caps_grow, worker_caps in H. simpl in H.
  assert (Hc' : c' = destination_capabilities
            (worker_world
               (w_normalize_files_locals env load_id files
                  (init_worker w stored_schema)).2)).
  { subst c'. unfold w_normalize_files.
    by destruct (w_normalize_files_locals _ _ _ _). }
  rewrite <- Hc' in H. fold c in H.
  destruct H as (Hl & Hs & Hsup).
  repeat split; [done..|].
  intros Hnot. destruct Hsup as [?|(l & k & Hc & Hin & _)]; [done|].
  rewrite Hc in Hnot. done.
Qed.

(** ** The write format a worker selects *)

Section WriteFormat.

Variable env : Collaborators.
Variable caps0 : DestinationCapabilities.

Lemma caps_grow_parquet c :
  caps_grow caps0 c ->
  "parquet" ∈ default [] (supported_loader_file_formats c)
  <-> "parquet" ∈ default [] (supported_loader_file_formats caps0).
Proof.
  intros (_ & _ & [->|(l & k & -> & Hin & ->)]); [done|].
  simpl. split; [done|]. intros _. apply elem_of_app. by left.
Qed.

Lemma caps_grow_selected c file_format :
  caps_grow caps0 c ->
  selected_write_format c file_format
  = selected_write_format caps0 file_format.
Proof.
  intros Hg. unfold selected_write_format.
  rewrite (bool_decide_ext _ _ (caps_grow_parquet c Hg)).
  destruct Hg as (-> & -> & _). done.
Qed.

Lemma caps_grow_supported_or_empty c :
  caps_grow caps0 c -> supported_or_empty c = supported_or_empty caps0.
Proof.
  unfold supported_or_empty.
  intros (_ & _ & [->|(l & k & -> & Hin & ->)]); [done|].
  destruct l as [|x l]; [by apply elem_of_nil in Hin|done].
Qed.

Lemma caps_grow_arrow c c' :
  caps_grow c c' ->
  "arrow" ∈ default [] (supported_loader_file_formats c) ->
  "arrow" ∈ default [] (supported_loader_file_formats c').
Proof.
  intros (_ & _ & [->|(l & k & -> & Hin & ->)]); [done|].
  simpl. intros H. apply elem_of_app. by left.
Qed.

Lemma written_as_selected_mono st st' c :
  worker_caps_grow st st' ->
  (forall k, is_Some (load_storages st !! k) ->
             is_Some (load_storages st' !! k)) ->
  written_as_selected caps0 st c -> written_as_selected caps0 st' c.
Proof.
  intros Hg Hsto. destruct c as [|k f| |]; simpl; try done.
  intros (parsed & storage & Hp & Hk & Hs & Ha).
  destruct (Hsto k) as [storage' Hs']; [by eexists|].
  exists parsed, storage'. repeat split; try done.
  intros Hfmt Hin. eapply caps_grow_arrow; [exact Hg|]. by apply Ha.
Qed.

(** A step keeps the invariant if it lets the capabilities grow at most,
    keeps the storages there are (as to format and supported list), files
    new ones under their format, adds only normalizers bound to the
    selected storage, and logs only writes to the selected storage. *)
Lemma worker_inv_step st st' :
  worker_inv caps0 st ->
  worker_caps_grow st st' ->
  (forall k s', load_storages st' !! k = Some s' ->
     (exists s, load_storages st !! k = Some s
                /\ loader_file_format s' = loader_file_format s
                /\ supported_file_formats s' = supported_file_formats s)
     \/ (loader_file_format s' = k
         /\ supported_file_formats s' = supported_or_empty caps0)) ->
  (forall k, is_Some (load_storages st !! k) ->
             is_Some (load_storages st' !! k)) ->
  (forall fmt n, item_normalizers st' !! fmt = Some n ->
     item_normalizers st !! fmt = Some n
     \/ (normalizer_load_storage n = selected_write_format caps0 (Some fmt)
         /\ is_Some (load_storages st' !! normalizer_load_storage n))) ->
  (exists new, worker_calls st' = worker_calls st ++ new
               /\ Forall (written_as_selected caps0 st') new) ->
  worker_inv caps0 st'.
Proof.
  intros (Hcaps & Hsto & Hnorm & Hlog) Hg Hsto' Hkeep Hnorm'
    (new & Hcalls & Hnew).
  split; [|split; [|split]].
  - etransitivity; [exact Hcaps|exact Hg].
  - intros k s' Hs'. destruct (Hsto' k s' Hs') as [(s & Hs & -> & ->)|H].
    + by apply Hsto.
    + done.
  - intros fmt n Hn. destruct (Hnorm' fmt n Hn) as [Hold|H]; [|done].
    destruct (Hnorm fmt n Hold) as [Hsel Hex]. split; [done|].
    by apply Hkeep.
  - rewrite Hcalls. apply Forall_app. split; [|done].
    eapply Forall_impl; [exact Hlog|].
    intros c. by apply written_as_selected_mono.
Qed.


Lemma get_writer_keeps table_name storage :
  loader_file_format (get_writer table_name storage)
  = loader_file_format storage
  /\ supported_file_formats (get_writer table_name storage)
     = supported_file_formats storage.
Proof. unfold get_writer. by case_bool_decide. Qed.

Lemma get_writers_keep tables : forall storage,
  loader_file_format (foldl (fun s t => get_writer t s) storage tables)
  = loader_file_format storage
  /\ supported_file_formats (foldl (fun s t => get_writer t s) storage tables)
     = supported_file_formats storage.
Proof.
  induction tables as [|t tl IH]; intros storage; simpl; [done|].
  destruct (IH (get_writer t storage)) as [-> ->].
  apply get_writer_keeps.
Qed.

(** Steps that only change storages in place. *)
Lemma worker_inv_alter st st' ref f new :
  (forall s, loader_file_format (f s) = loader_file_format s
             /\ supported_file_formats (f s) = supported_file_formats s) ->
  load_storages st' = alter f ref (load_storages st) ->
  item_normalizers st' = item_normalizers st ->
  worker_caps st' = worker_caps st ->
  worker_calls st' = worker_calls st ++ new ->
  Forall (written_as_selected caps0 st') new ->
  worker_inv caps0 st -> worker_inv caps0 st'.
Proof.
  intros Hf Hsto Hnorm Hcaps Hcalls Hnew Hinv.
  apply (worker_inv_step st st' Hinv).
  - by apply same_caps_grow.
  - intros k s' Hs'. left. rewrite Hsto, lookup_alter in Hs'.
    case_decide as Hk.
    + subst k. destruct (load_storages st !! ref) as [s|] eqn:Hs;
        [|done]. simpl in Hs'. injection Hs' as <-.
      exists s. split; [done|]. apply Hf.
    + by exists s'.
  - intros k [s Hs]. rewrite Hsto, lookup_alter.
    case_decide as Hk; [subst k|]; rewrite Hs; by eexists.
  - intros fmt n Hn. left. by rewrite <- Hnorm.
  - by exists new.
Qed.

Lemma append_arrow_supported st :
  supported_loader_file_formats (worker_caps (append_arrow st))
  = Some (default [] (supported_loader_file_formats (worker_caps st))
            ++ ["arrow"]).
Proof. done. Qed.

Lemma get_load_storage_inv (file_format : option string) (st : Worker) :
  worker_inv caps0 st ->
  exists st',
    _get_load_storage file_format st
      = (Ok (selected_write_format caps0 file_format), st')
    /\ worker_inv caps0 st'
    /\ is_Some (load_storages st' !! selected_write_format caps0 file_format)
    /\ (forall f, file_format = Some f -> arrow_supported caps0 f st')
    /\ item_normalizers st' = item_normalizers st.
Proof.
  intros Hinv. pose proof Hinv as (Hcaps & Hsto & Hnorm & Hlog).
  rewrite get_load_storage_eq. cbv zeta.
  rewrite (caps_grow_selected _ _ Hcaps), (caps_grow_supported_or_empty _ Hcaps).
  set (key := selected_write_format caps0 file_format).
  set (parquet_ok := bool_decide (file_format = Some "parquet")
         && bool_decide ("parquet" ∈ default []
              (supported_loader_file_formats (worker_caps st)))).
  set (st1 := if parquet_ok then append_arrow st else st).
  assert (Hg1 : worker_caps_grow st st1).
  { subst st1 parquet_ok.
    destruct (bool_decide (file_format = Some "parquet")); simpl;
      [|reflexivity].
    destruct (bool_decide _) eqn:Hin; [|reflexivity].
    apply append_arrow_caps_grow. by apply bool_decide_eq_true in Hin. }
  assert (Hsame : load_storages st1 = load_storages st
                  /\ item_normalizers st1 = item_normalizers st
                  /\ worker_calls st1 = worker_calls st).
  { subst st1. by destruct parquet_ok. }
  destruct Hsame as (Hs1 & Hn1 & Hc1).
  assert (Harrow : forall st2, worker_caps_grow st1 st2 ->
            forall f, file_format = Some f -> arrow_supported caps0 f st2).
  { intros st2 Hg2 f -> -> Hin. eapply caps_grow_arrow; [exact Hg2|].
    subst st1 parquet_ok. rewrite bool_decide_eq_true_2 by done.
    rewrite bool_decide_eq_true_2 by (by apply caps_grow_parquet).
    cbn [andb]. rewrite append_arrow_supported. cbn [default].
    apply elem_of_app. right. by apply list_elem_of_singleton. }
  destruct (load_storages st !! key) as [storage|] eqn:Hkey.
  - exists st1. split; [done|]. split; [|split; [|split]].
    + apply (worker_inv_step st st1 Hinv Hg1).
      * intros k s' Hs'. left. rewrite Hs1 in Hs'. by exists s'.
      * intros k. by rewrite Hs1.
      * intros fmt n Hn. left. by rewrite <- Hn1.
      * exists []. by rewrite app_nil_r.
    + rewrite Hs1, Hkey. by eexists.
    + apply Harrow. reflexivity.
    + done.
  - eexists. split; [reflexivity|]. split; [|split; [|split]].
    + apply (worker_inv_step st _ Hinv).
      * etransitivity; [exact Hg1|]. by apply same_caps_grow.
      * intros k s'. cbn [log_worker_call set_load_storages load_storages].
        rewrite Hs1, lookup_insert. case_decide as Hk.
        -- intros [= <-]. right. by subst k.
        -- intros Hs'. left. by exists s'.
      * intros k. cbn [log_worker_call set_load_storages load_storages].
        rewrite Hs1, lookup_insert. case_decide; [by eexists|done].
      * intros fmt n Hn. left. simpl in Hn. by rewrite <- Hn1.
      * exists [NewLoadStorage key]. simpl. rewrite Hc1. split; [done|].
        by repeat constructor.
    + cbn [log_worker_call set_load_storages load_storages].
      rewrite lookup_insert_eq. by eexists.
    + apply Harrow. by apply same_caps_grow.
    + simpl. done.
Qed.


Lemma get_items_normalizer_inv (file_format : string) (st : Worker) :
  worker_inv caps0 st ->
  exists norm st',
    _get_items_normalizer file_format st
      = (Ok (norm, selected_write_format caps0 (Some file_format)), st')
    /\ normalizer_load_storage norm
       = selected_write_format caps0 (Some file_format)
    /\ worker_inv caps0 st'
    /\ is_Some (load_storages st'
                  !! selected_write_format caps0 (Some file_format))
    /\ arrow_supported caps0 file_format st'.
Proof.
  intros Hinv.
  destruct (get_load_storage_inv (Some file_format) st Hinv)
    as (st1 & Heq & Hinv1 & Hex & Harrow & Hn).
  unfold _get_items_normalizer, mbind, St_bind. rewrite Heq.
  cbn [gets].
  destruct (item_normalizers st1 !! file_format) as [norm|] eqn:Hnorm.
  - exists norm, st1. split; [done|].
    pose proof Hinv1 as (_ & _ & Hnorms & _).
    destruct (Hnorms _ _ Hnorm) as [Hsel _].
    split; [done|]. split; [done|]. split; [done|]. by apply Harrow.
  - eexists _, _. split; [reflexivity|]. split; [done|].
    split; [|split].
    + apply (worker_inv_step st1 _ Hinv1).
      * by apply same_caps_grow.
      * intros k s' Hs'. left. by exists s'.
      * done.
      * intros fmt n. cbn [set_item_normalizers item_normalizers].
        rewrite lookup_insert. case_decide as Hk.
        -- intros [= <-]. right. subst fmt. done.
        -- by left.
      * exists []. by rewrite app_nil_r.
    + done.
    + by apply Harrow.
Qed.

Lemma call_normalizer_inv norm file root_table_name parsed (st : Worker) :
  parse_normalize_file_name file = Ok parsed ->
  normalizer_load_storage norm
    = selected_write_format caps0 (Some (parsed_file_format parsed)) ->
  is_Some (load_storages st !! normalizer_load_storage norm) ->
  arrow_supported caps0 (parsed_file_format parsed) st ->
  worker_inv caps0 st ->
  worker_inv caps0 (call_normalizer env norm file root_table_name st).2.
Proof.
  intros Hparse Hsel [storage Hsto] Harrow Hinv.
  unfold call_normalizer, mbind, St_bind. cbn [get lift].
  destruct (normalize_items env _ _ _ _) as [[[[ups n] counts] sch]|e];
    [|done].
  cbn [modify mret St_ret snd].
  apply (worker_inv_alter st _ (normalizer_load_storage norm)
           (fun storage =>
              foldl (fun s t => get_writer t s) storage
                (map_to_list (filter (fun kv => (0 < kv.2)%Z) counts)).*1)
           [WriteDataItems (normalizer_load_storage norm) file]).
  - intros s. apply get_writers_keep.
  - reflexivity.
  - reflexivity.
  - reflexivity.
  - reflexivity.
  - repeat constructor. simpl.
    exists parsed. eexists. split; [done|]. split; [done|]. split; [|done].
    rewrite lookup_alter. rewrite decide_True by done.
    rewrite Hsto. reflexivity.
  - done.
Qed.

Global Instance keeps_inv_preorder : PreOrder (keeps_inv caps0).
Proof.
  split; [intros st H; exact H|].
  intros a b c Hab Hbc Ha. apply Hbc, Hab, Ha.
Qed.

Lemma normalize_file_inv file :
  respects (keeps_inv caps0) (normalize_file env file).
Proof.
  intros st Hinv. unfold normalize_file, mbind, St_bind.
  cbn [lift].
  destruct (parse_normalize_file_name file) as [parsed|e] eqn:Hparse;
    [|done].
  cbn [modify].
  set (st1 := add_root_table _ st).
  assert (Hinv1 : worker_inv caps0 st1).
  { apply (worker_inv_alter st st1 None (fun s => s) []); try done.
    - subst st1. simpl. symmetry. apply map_eq. intros k.
      rewrite lookup_alter. case_decide; [subst k|done].
      by destruct (load_storages st !! None).
    - subst st1. simpl. by rewrite app_nil_r. }
  destruct (get_items_normalizer_inv (parsed_file_format parsed) st1 Hinv1)
    as (norm & st2 & Heq & Hsel & Hinv2 & Hex & Harrow).
  rewrite Heq.
  set (st3 := set_load_storage _ st2).
  assert (Hinv3 : worker_inv caps0
                    (call_normalizer env norm file
                       (normalize_table_identifier env (parsed_table_name parsed))
                       st3).2).
  { apply (call_normalizer_inv _ _ _ parsed); try done.
    by rewrite Hsel. }
  destruct (call_normalizer _ _ _ _ st3) as [[[[ups n] counts]|e] st4];
    [|done].
  simpl in *. done.
Qed.


Lemma write_empty_file_inv ref table_name :
  respects (keeps_inv caps0) (write_empty_file ref table_name).
Proof.
  intros st Hinv. cbn [write_empty_file modify snd].
  apply (worker_inv_alter st _ ref (get_writer table_name)
           [WriteEmptyFile ref table_name]); try done.
  - intros s. apply get_writer_keeps.
  - by repeat constructor.
Qed.

Lemma write_empty_jobs_inv :
  respects (keeps_inv caps0) write_empty_jobs.
Proof.
  unfold write_empty_jobs.
  repeat first [ apply write_empty_file_inv | respects_step ]; apply _.
Qed.

Lemma close_writers_inv ref load_id :
  respects (keeps_inv caps0) (close_writers ref load_id).
Proof.
  intros st Hinv. cbn [close_writers modify snd].
  cbn [log_worker_call load_storages].
  destruct (load_storages st !! ref) as [storage|] eqn:Hsto.
  - destruct (close_all _ _ _ _ _) as [closed w] eqn:Hc.
    apply (worker_inv_alter st _ ref
             (fun storage =>
                {| is_owner := is_owner storage;
                   loader_file_format := loader_file_format storage;
                   supported_file_formats := supported_file_formats storage;
                   open_writers := []; closed_files := closed |})
             [CloseWriters ref]); try done.
    + unfold worker_caps. simpl.
      change w with (closed, w).2. rewrite <- Hc.
      apply close_all_capabilities.
    + by repeat constructor.
  - apply (worker_inv_alter st _ ref (fun s => s) [CloseWriters ref]);
      try done.
    + simpl. symmetry. apply map_eq. intros k.
      rewrite lookup_alter. case_decide; [subst k|done].
      by rewrite Hsto.
    + by repeat constructor.
Qed.

Lemma get_load_storage_keeps_inv file_format :
  respects (keeps_inv caps0) (_get_load_storage file_format).
Proof.
  intros st Hinv.
  destruct (get_load_storage_inv file_format st Hinv) as (st' & -> & H & _).
  done.
Qed.

Lemma set_load_storage_inv ref :
  respects (keeps_inv caps0) (modify (set_load_storage ref)).
Proof.
  intros st Hinv. cbn [modify snd].
  apply (worker_inv_alter st _ None (fun s => s) []); try done.
  - simpl. symmetry. apply map_eq. intros k.
    rewrite lookup_alter. case_decide; [subst k|done].
    by destruct (load_storages st !! None).
  - simpl. by rewrite app_nil_r.
Qed.

Lemma w_normalize_files_locals_inv load_id files :
  respects (keeps_inv caps0) (w_normalize_files_locals env load_id files).
Proof.
  unfold w_normalize_files_locals.
  repeat first
    [ apply get_load_storage_keeps_inv
    | apply set_load_storage_inv
    | apply normalize_file_inv
    | apply write_empty_jobs_inv
    | apply close_writers_inv
    | respects_step ]; apply _.
Qed.

End WriteFormat.

Lemma init_worker_inv (w : World) (stored_schema : TStoredSchema) :
  worker_inv (destination_capabilities w) (init_worker w stored_schema).
Proof.
  split; [reflexivity|]. split; [|split]; simpl.
  - intros k s Hs. by rewrite lookup_empty in Hs.
  - intros fmt n Hn. by rewrite lookup_empty in Hn.
  - constructor.
Qed.

(** C5. Every input file a worker normalizes is written through the load
    storage that the selection rule names for the file's format: [arrow]
    when the format is parquet and parquet is among the destination's
    supported loader formats, and in every other case the preferred loader
    format, or the preferred staging format when there is no preferred
    loader format.  That storage has the selected format as its write
    format, and in the parquet case [arrow] is among the supported formats
    it holds. *)
Theorem worker_write_formats (env : Collaborators)
    (stored_schema : TStoredSchema) (load_id : string) (files : list string)
    (w : World) (storage_key : option string) (file : string) :
  let caps0 := destination_capabilities w in
  let st' := (w_normalize_files_locals env load_id files
                (init_worker w stored_schema)).2 in
  WriteDataItems storage_key file ∈ worker_calls st' ->
  exists parsed storage,
    parse_normalize_file_name file = Ok parsed
    /\ storage_key
       = (if bool_decide (parsed_file_format parsed = "parquet")
             && bool_decide ("parquet" ∈ default []
                               (supported_loader_file_formats caps0))
          then Some "arrow"
          else match preferred_loader_file_format caps0 with
               | Some f => if String.eqb f ""
                           then preferred_staging_file_format caps0
                           else Some f
               | None => preferred_staging_file_format caps0
               end)
    /\ load_storages st' !! storage_key = Some storage
    /\ loader_file_format storage = storage_key
    /\ (parsed_file_format parsed = "parquet" ->
        "parquet" ∈ default [] (supported_loader_file_formats caps0) ->
        "arrow" ∈ formats_of (supported_file_formats storage) (worker_caps st')).
Proof.
  intros caps0 st' Hin.
  pose proof (w_normalize_files_locals_inv env caps0 load_id files
                (init_worker w stored_schema)
                (init_worker_inv w stored_schema)) as Hinv.
  fold st' in Hinv. destruct Hinv as (Hcaps & Hsto & _ & Hlog).
  rewrite Forall_forall in Hlog. specialize (Hlog _ Hin). simpl in Hlog.
  destruct Hlog as (parsed & storage & Hparse & Hkey & Hs & Harrow).
  exists parsed, storage. split; [done|].
  destruct (Hsto _ _ Hs) as [Hfmt Hsup].
  split; [|split; [done|split; [done|]]].
  - rewrite Hkey. unfold selected_write_format.
    rewrite (bool_decide_ext (Some (parsed_file_format parsed) = Some "parquet")
               (parsed_file_format parsed = "parquet"));
      [done|split; congruence].
  - intros Hp Hsupp. rewrite Hsup.
    assert (supported_or_empty caps0 = CapabilitiesList) as ->.
    { unfold supported_or_empty.
      destruct (supported_loader_file_formats caps0) as [[|x l]|];
        simpl in Hsupp; [by apply elem_of_nil in Hsupp|done
                        |by apply elem_of_nil in Hsupp]. }
    simpl. by apply Harrow.
Qed.

Lemma worker_write_formats_witness :
  WriteDataItems (Some "arrow") "s.t2.parquet.1.parquet"
    ∈ worker_calls Scenario.worker_run.2
  /\ exists parsed storage,
       parse_normalize_file_name "s.t2.parquet.1.parquet" = Ok parsed
       /\ load_storages Scenario.worker_run.2 !! Some "arrow" = Some storage
       /\ loader_file_format storage = Some "arrow"
       /\ "arrow" ∈ formats_of (supported_file_formats storage)
                      (worker_caps Scenario.worker_run.2).
Proof.
  assert (Hin : WriteDataItems (Some "arrow") "s.t2.parquet.1.parquet"
                  ∈ worker_calls Scenario.worker_run.2).
  { apply list_elem_of_In. vm_compute. tauto. }
  split; [exact Hin|].
  destruct (worker_write_formats Scenario.env Scenario.stored_schema "L1"
              Scenario.files Scenario.world0 (Some "arrow")
              "s.t2.parquet.1.parquet" Hin)
    as (parsed & storage & Hparse & _ & Hs & Hfmt & Harrow).
  exists parsed, storage. split; [done|]. split; [done|]. split; [done|].
  apply Harrow.
  - vm_compute in Hparse. injection Hparse as <-. reflexivity.
  - apply list_elem_of_In. vm_compute. tauto.
Defined.

(** ** The coordinator's gather loop *)

Section WorkerCollector.

Variable env : Collaborators.

Global Instance same_collector_preorder : PreOrder same_collector.
Proof.
  split; [by intros st|].
  intros a b c Hab Hbc. unfold same_collector in *. congruence.
Qed.

Lemma close_all_collector load_id fmt tables : forall closed w,
  collector (close_all load_id fmt tables closed w).2 = collector w.
Proof.
  induction tables as [|t tl IH]; intros closed w; simpl; [done|].
  by rewrite IH.
Qed.

Ltac same_coll := intros; reflexivity.

Lemma close_writers_collector ref load_id :
  respects same_collector (close_writers ref load_id).
Proof.
  apply respects_modify. intros st. unfold same_collector.
  cbn [log_worker_call load_storages].
  destruct (load_storages st !! ref) as [storage|]; [|done].
  destruct (close_all _ _ _ _ _) as [closed w] eqn:Hc. simpl.
  change w with (closed, w).2. rewrite <- Hc.
  apply close_all_collector.
Qed.

Lemma w_normalize_files_locals_collector load_id files :
  respects same_collector (w_normalize_files_locals env load_id files).
Proof.
  unfold w_normalize_files_locals, normalize_file, write_empty_jobs,
    write_empty_file, call_normalizer, _get_items_normalizer,
    _get_load_storage, append_format.
  repeat first
    [ apply close_writers_collector
    | apply respects_modify; same_coll
    | respects_step ]; apply _.
Qed.

Lemma w_normalize_files_collector stored_schema load_id files w :
  collector (w_normalize_files env stored_schema load_id files w).2
  = collector w.
Proof.
  pose proof (w_normalize_files_locals_collector load_id files
                (init_worker w stored_schema)) as H.
  unfold same_collector in H. unfold w_normalize_files.
  by destruct (w_normalize_files_locals _ _ _ _).
Qed.

End WorkerCollector.

Section Gather.

Variable env : Collaborators.
Variable pool : Executor.

Lemma in_temp_os_remove (file g : string) (w : World) :
  in_temp w file ->
  exists w',
    os_remove file w = (Ok tt, w')
    /\ collector w' = collector w
    /\ (in_temp w' g <-> in_temp w g /\ g <> file).
Proof.
  intros Hin. unfold os_remove.
  rewrite bool_decide_eq_true_2 by exact Hin.
  eexists. split; [reflexivity|]. split; [done|].
  unfold in_temp. cbn [temp set_temp].
  split.
  - intros (lid & pk & Hpk & Hg). rewrite lookup_fmap in Hpk.
    destruct (temp w !! lid) as [pk0|] eqn:Hlid; [|done].
    simpl in Hpk. injection Hpk as <-. simpl in Hg.
    apply list_elem_of_filter in Hg as [Hne Hg].
    split; [|done]. by exists lid, pk0.
  - intros [(lid & pk & Hpk & Hg) Hne].
    eexists lid, _. rewrite lookup_fmap, Hpk. split; [reflexivity|].
    simpl. apply list_elem_of_filter. done.
Qed.

(** Deleting a task's files: every one of them is removed, from first to
    last, and none is left in any temp package. *)
Lemma remove_files_ok (files : list string) : forall (w : World),
  NoDup files ->
  (forall f, f ∈ files -> in_temp w f) ->
  exists w',
    for_each files os_remove w = (Ok tt, w')
    /\ collector w' = collector w
    /\ (forall g, in_temp w' g <-> in_temp w g /\ g ∉ files).
Proof.
  induction files as [|f tl IH]; intros w Hnd Hall.
  - exists w. split; [done|]. split; [done|].
    intros g. split; [intros H; split; [done|]|by intros [H _]].
    apply not_elem_of_nil.
  - apply NoDup_cons in Hnd as [Hnotin Hnd].
    destruct (in_temp_os_remove f f w) as (w1 & Hrm & Hcol1 & _).
    { apply Hall. by left. }
    destruct (IH w1 Hnd) as (w' & Hrest & Hcol & Hiff).
    { intros g Hg.
      destruct (in_temp_os_remove f g w) as (w1' & Hrm' & _ & Hg').
      { apply Hall. by left. }
      rewrite Hrm in Hrm'. injection Hrm' as <-.
      apply Hg'. split; [apply Hall; by right|].
      intros ->. done. }
    exists w'. cbn [for_each]. unfold mbind, St_bind. rewrite Hrm.
    split; [done|]. split; [congruence|].
    intros g. rewrite Hiff.
    destruct (in_temp_os_remove f g w) as (w1' & Hrm' & _ & Hg').
    { apply Hall. by left. }
    rewrite Hrm in Hrm'. injection Hrm' as <-.
    rewrite Hg', not_elem_of_cons. tauto.
Qed.

Lemma for_each_zoom_world (files : list string) : forall (st : Coordinator),
  for_each files (fun file => zoom c_world set_c_world (os_remove file)) st
  = (let '(r, w) := for_each files os_remove (c_world st) in
     (r, match files with [] => st | _ => set_c_world w st end)).
Proof.
  induction files as [|f tl IH]; intros st; [done|].
  cbn [for_each]. unfold mbind, St_bind.
  unfold zoom at 1.
  destruct (os_remove f (c_world st)) as [[[]|e] w1]; [|done].
  rewrite IH. cbn [c_world set_c_world].
  destruct (for_each tl os_remove w1) as [r w2] eqn:Htl.
  destruct tl; [|done].
  simpl in Htl. by injection Htl as <- <-.
Qed.

Lemma remove_task_app task tasks tasks' extra :
  remove_task task tasks = Ok tasks' ->
  remove_task task (tasks ++ extra) = Ok (tasks' ++ extra).
Proof.
  revert tasks'. induction tasks as [|t tl IH]; intros tasks' H;
    simpl in *; [done|].
  destruct (Nat.eqb _ _); [by injection H as <-|].
  destruct (remove_task task tl) as [tl'|] eqn:Htl; [|done].
  simpl in H. injection H as <-.
  by rewrite (IH tl').
Qed.

End Gather.

Section GatherConflict.

Variable env : Collaborators.
Variable pool : Executor.

Lemma absorb_conflict (st : Coordinator) updates items files counts :
  (update_table updates (c_schema st)).1 = Raise CannotCoerceColumnException ->
  absorb (updates, items, files, counts) st
  = (Raise CannotCoerceColumnException,
     set_c_schema (update_table updates (c_schema st)).2 st).
Proof.
  intros Hup. unfold absorb, mbind, St_bind, zoom.
  destruct (update_table updates (c_schema st)) as [r schema'].
  simpl in Hup. subst r. done.
Qed.

(** X1. When the merge of a finished task's schema updates raises a
    column-coercion conflict and the task's files are there to delete,
    [gather_task] returns normally, having removed every file the task
    reported, taken a new snapshot of the schema as the failed merge left
    it, submitted the same files again with that snapshot, put the new task
    at the end of the task list and taken the failed one out; the
    accumulated schema updates, the row counts and the collector are as
    before. *)
Theorem gather_task_conflict (st : Coordinator) (pending : Future)
    (params : Params) (updates : list TSchemaUpdate) (items : Z)
    (files : list string) (counts : gmap string Z)
    (tasks' : list (Future * Params)) :
  completes pool (future_id pending) (c_polls st) = true ->
  future_result pending = Ok (updates, items, files, counts) ->
  (update_table updates (c_schema st)).1 = Raise CannotCoerceColumnException ->
  NoDup files ->
  (forall f, f ∈ files -> in_temp (c_world st) f) ->
  remove_task (pending, params) (c_tasks st) = Ok tasks' ->
  let schema' := (update_table updates (c_schema st)).2 in
  let params' := {| param_schema := to_dict schema';
                    param_load_id := param_load_id params;
                    param_files := param_files params |} in
  exists w_del retry_result w',
    for_each files os_remove (c_world st) = (Ok tt, w_del)
    /\ (forall f, f ∈ files -> ~ in_temp w_del f)
    /\ w_normalize_files env (to_dict schema') (param_load_id params)
         (param_files params) w_del = (retry_result, w')
    /\ gather_task env pool (pending, params) st
       = (Ok tt,
          {| c_world := w'; c_schema := schema';
             c_tasks :=
               tasks' ++ [({| future_id := c_next_future st;
                              future_result := retry_result |}, params')];
             c_schema_updates := c_schema_updates st;
             c_row_counts := c_row_counts st;
             c_next_future := S (c_next_future st);
             c_polls := c_polls st |})
    /\ collector w' = collector (c_world st).
Proof.
  intros Hdone Hres Hup Hnd Hall Hrm schema' params'.
  destruct (remove_files_ok files (c_world st) Hnd Hall)
    as (w_del & Hdel & Hcol & Hiff).
  destruct (w_normalize_files env (to_dict schema') (param_load_id params)
              (param_files params) w_del) as [retry_result w'] eqn:Hretry.
  exists w_del, retry_result, w'.
  split; [done|]. split; [intros f Hf Hin; by apply Hiff in Hin as [_ ?]|].
  split; [done|]. split.
  - unfold gather_task, mbind, St_bind. cbn [gets].
    rewrite Hdone, Hres. cbn [lift].
    unfold try_except. rewrite absorb_conflict by done.
    cbn [on_conflict]. fold schema'.
    unfold retry, mbind, St_bind.
    rewrite for_each_zoom_world. cbn [c_world set_c_schema].
    rewrite Hdel.
    assert (Hgo : forall st2 : Coordinator,
              c_world st2 = w_del -> c_schema st2 = schema' ->
              c_tasks st2 = c_tasks st ->
              c_schema_updates st2 = c_schema_updates st ->
              c_row_counts st2 = c_row_counts st ->
              c_next_future st2 = c_next_future st ->
              c_polls st2 = c_polls st ->
              (let (r, s') :=
                 let (r, s') :=
                   gets (fun st0 : Coordinator => to_dict (c_schema st0)) st2 in
                 match r with
                 | Ok a =>
                     let (r0, s'0) :=
                       submit env
                         {| param_schema := a;
                            param_load_id := param_load_id params;
                            param_files := param_files params |} s' in
                     match r0 with
                     | Ok a0 =>
                         modify
                           (fun st0 : Coordinator =>
                              set_c_tasks
                                (c_tasks st0 ++
                                 [(a0,
                                   {| param_schema := a;
                                      param_load_id := param_load_id params;
                                      param_files := param_files params |})])
                                st0) s'0
                     | Raise e => (Raise e, s'0)
                     end
                 | Raise e => (Raise e, s')
                 end in
               match r with
               | Ok _ =>
                   match remove_task (pending, params) (c_tasks s') with
                   | Ok a0 => modify (set_c_tasks a0) s'
                   | Raise e => (Raise e, s')
                   end
               | Raise e => (Raise e, s')
               end) =
              (Ok (),
               {| c_world := w'; c_schema := schema';
                  c_tasks :=
                    tasks' ++
                    [({| future_id := c_next_future st;
                         future_result := retry_result |}, params')];
                  c_schema_updates := c_schema_updates st;
                  c_row_counts := c_row_counts st;
                  c_next_future := S (c_next_future st);
                  c_polls := c_polls st |})).
    { intros st2 Hw Hs Ht Hu Hr Hn Hp.
      cbn [gets]. unfold submit.
      cbn [param_schema param_load_id param_files].
      rewrite Hs, Hw, Hretry.
      cbn [modify set_c_next_future set_c_world set_c_tasks c_tasks
           c_world c_schema c_schema_updates c_row_counts c_next_future
           c_polls].
      rewrite Ht, (remove_task_app _ _ tasks') by done.
      unfold modify, set_c_tasks, set_c_next_future, set_c_world.
      cbn [c_tasks c_world c_schema c_schema_updates c_row_counts
           c_next_future c_polls].
      rewrite Hs, Hu, Hr, Hn, Hp. reflexivity. }
    destruct files as [|f tl].
    + simpl in Hdel. injection Hdel as <-. by apply Hgo.
    + by apply Hgo.
  - rewrite <- Hcol.
    pose proof (w_normalize_files_collector env (to_dict schema')
                  (param_load_id params) (param_files params) w_del) as H.
    by rewrite Hretry in H.
Qed.

End GatherConflict.

(** ** The order of calls in [spool_files] *)

Section SpoolOrder.

Lemma schema_not_found_decide {A : Type} (h : St Normalize A) (e : exn) :
  schema_not_found h e
  = if decide (e = SchemaNotFoundError) then Some h else None.
Proof. by destruct e. Qed.

(** What [commit_protocol] checks, said of any place in the record. *)
Lemma commit_protocol_split load_id before :
  forall log checked committed c o after,
    commit_protocol load_id checked committed log = true ->
    log = before ++ (c, o) :: after ->
    (forall l, c = CommitTempLoadPackage l ->
       checked = true \/ (RaiseIfSignalled, None) ∈ before)
    /\ (forall fs, c = DeleteExtractedFiles fs ->
          committed = true
          \/ (CommitTempLoadPackage load_id, None) ∈ before).
Proof.
  induction before as [|[cb ob] before IH];
    intros log checked committed c o after Hok ->.
  - split.
    + intros l ->. simpl in Hok. left.
      by apply andb_true_iff in Hok as [? _].
    + intros fs ->. simpl in Hok. left.
      by apply andb_true_iff in Hok as [? _].
  - cbn [app] in Hok.
    assert (Hstep : exists checked' committed',
              commit_protocol load_id checked' committed'
                (before ++ (c, o) :: after) = true
              /\ (checked' = true ->
                  checked = true \/ (cb, ob) = (RaiseIfSignalled, None))
              /\ (committed' = true ->
                  committed = true
                  \/ (cb, ob) = (CommitTempLoadPackage load_id, None))).
    { destruct cb; cbn [commit_protocol] in Hok;
        try (exists checked, committed; by auto).
      - destruct ob.
        + exists checked, committed. auto.
        + exists true, committed. auto.
      - apply andb_true_iff in Hok as [Hc Hok].
        eexists _, _. split; [exact Hok|]. split; [auto|].
        intros Hcom. apply orb_true_iff in Hcom as [?|Hcom]; [auto|].
        apply andb_true_iff in Hcom as [Heq Hnone].
        apply String.eqb_eq in Heq. apply bool_decide_eq_true in Hnone.
        subst. auto.
      - apply andb_true_iff in Hok as [Hc Hok].
        exists checked, committed. auto. }
    destruct Hstep as (checked' & committed' & Hok' & Hchk & Hcom).
    destruct (IH _ _ _ _ _ _ Hok' eq_refl) as [Hb Hd].
    split.
    + intros l Hl. destruct (Hb l Hl) as [H|H].
      * destruct (Hchk H) as [?|Heq]; [by left|].
        right. rewrite Heq. by left.
      * right. by right.
    + intros fs Hfs. destruct (Hd fs Hfs) as [H|H].
      * destruct (Hcom H) as [?|Heq]; [by left|].
        right. rewrite Heq. by left.
      * right. by right.
Qed.

Lemma no_commit_no_delete_spec log :
  no_commit_no_delete log = true ->
  (forall l o, (CommitTempLoadPackage l, o) ∉ log)
  /\ (forall fs o, (DeleteExtractedFiles fs, o) ∉ log).
Proof.
  unfold no_commit_no_delete. rewrite forallb_forall.
  intros H. split; intros x o Hin; apply list_elem_of_In in Hin;
    by specialize (H _ Hin).
Qed.

Ltac crunch map_f :=
  repeat
    (cbn beta iota zeta delta
       [fst snd outcome mret St_ret modify save_schema save_temp_schema
        save_temp_schema_updates delete_extracted_files
        faults log_call set_world set_row_counts world signalled temp
        set_temp set_stored_schemas set_extracted set_processing];
     rewrite ?schema_not_found_decide, ?lookup_insert_eq;
     match goal with
     | |- context [match faults ?s ?n with _ => _ end] =>
         destruct (faults s n) eqn:?
     | |- context [decide (?e = SchemaNotFoundError)] =>
         destruct (decide (e = SchemaNotFoundError))
     | |- context [map_f ?a ?b ?c ?w] =>
         destruct (map_f a b c w) as [[[[? ?] ?]|?] ?] eqn:?
     | |- context [match stored_schemas ?w !! ?n with _ => _ end] =>
         destruct (stored_schemas w !! n) eqn:?
     | |- context [if signalled ?w then _ else _] =>
         destruct (signalled w) eqn:?
     | |- context [match temp ?w !! ?l with _ => _ end] =>
         destruct (temp w !! l) eqn:?
     end).

Ltac in_log := apply list_elem_of_In; simpl; tauto.

Ltac find_check H :=
  repeat (apply elem_of_cons in H as [H|H]; [try discriminate H|]);
  [..|by apply elem_of_nil in H].

(** Every run of [spool_files] adds to the record a list of calls that
    keeps the commit protocol. *)
Lemma spool_files_calls schema_name load_id map_f files self :
  let run := spool_files schema_name load_id map_f files self in
  exists new,
    calls run.2 = calls self ++ new
    /\ commit_protocol load_id false false new = true
    /\ (forall e, (RaiseIfSignalled, Some e) ∈ new ->
          run.1 = Raise e
          /\ no_commit_no_delete new = true
          /\ (MapFiles load_id files, None) ∈ new
          /\ (SaveSchema schema_name, None) ∈ new
          /\ (SaveTempSchema load_id, None) ∈ new
          /\ (SaveTempSchemaUpdates load_id, None) ∈ new)
    /\ (run.1 = Ok tt ->
          (RaiseIfSignalled, None) ∈ new
          /\ (CommitTempLoadPackage load_id, None) ∈ new
          /\ (DeleteExtractedFiles files, None) ∈ new).
Proof.
  cbv zeta.
  unfold spool_files, load_or_create_schema, try_except, external,
    mbind, St_bind, raise_if_signalled, commit_temp_load_package,
    load_schema.
  crunch map_f.
  all: unfold modify; cbn [calls log_call set_world set_row_counts fst snd];
    rewrite <- ?app_assoc; cbn [app]; eexists; split; [reflexivity|].
  all: split; [cbn; rewrite ?String.eqb_refl; reflexivity|].
  all: split; [|intros Hr; try discriminate Hr; repeat split; in_log].
  all: intros err Hin; find_check Hin.
  all: try (injection Hin as ->).
  all: repeat split; try reflexivity; in_log.
Qed.

End SpoolOrder.

(** C2. In every run of [spool_files]: if [raise_if_signalled] raises,
    then the run ends with that exception, after [map_f] has returned and
    the schema and the schema updates have been saved, and neither
    [commit_temp_load_package] nor [delete_extracted_files] is called;
    wherever a commit is called, a signal check that returned comes before
    it; wherever the extracted files are deleted, a commit of the load
    package that returned comes before it.  A run that returns has made all
    three calls. *)
Theorem spool_files_signal_commit_delete (schema_name load_id : string)
    (map_f : TMapFuncType) (files : list string) (self : Normalize) :
  let run := spool_files schema_name load_id map_f files self in
  exists new,
    calls run.2 = calls self ++ new
    /\ (forall e, (RaiseIfSignalled, Some e) ∈ new ->
          run.1 = Raise e
          /\ (forall l o, (CommitTempLoadPackage l, o) ∉ new)
          /\ (forall fs o, (DeleteExtractedFiles fs, o) ∉ new)
          /\ (MapFiles load_id files, None) ∈ new
          /\ (SaveSchema schema_name, None) ∈ new
          /\ (SaveTempSchema load_id, None) ∈ new
          /\ (SaveTempSchemaUpdates load_id, None) ∈ new)
    /\ (forall before l o after,
          new = before ++ (CommitTempLoadPackage l, o) :: after ->
          (RaiseIfSignalled, None) ∈ before)
    /\ (forall before fs o after,
          new = before ++ (DeleteExtractedFiles fs, o) :: after ->
          (CommitTempLoadPackage load_id, None) ∈ before)
    /\ (run.1 = Ok tt ->
          (RaiseIfSignalled, None) ∈ new
          /\ (CommitTempLoadPackage load_id, None) ∈ new
          /\ (DeleteExtractedFiles files, None) ∈ new).
Proof.
  intros run.
  destruct (spool_files_calls schema_name load_id map_f files self)
    as (new & Hcalls & Hproto & Hsig & Hok).
  exists new. split; [done|]. split; [|split; [|split; [|done]]].
  - intros e He. destruct (Hsig e He) as (Hr & Hquiet & Hrest).
    destruct (no_commit_no_delete_spec new Hquiet) as [Hc Hd].
    done.
  - intros before l o after Hnew.
    destruct (commit_protocol_split load_id before new false false
                _ o after Hproto Hnew) as [Hb _].
    by destruct (Hb l eq_refl).
  - intros before fs o after Hnew.
    destruct (commit_protocol_split load_id before new false false
                _ o after Hproto Hnew) as [_ Hd].
    by destruct (Hd fs eq_refl).
Qed.

Lemma gather_task_conflict_witness :
  exists w_del retry_result w',
    for_each ["L1/t.0.jsonl"] os_remove Conflict.world = (Ok tt, w_del)
    /\ ~ in_temp w_del "L1/t.0.jsonl"
    /\ gather_task Scenario.env NullExecutor
         (Conflict.pending, Conflict.params) Conflict.st
       = (Ok tt,
          {| c_world := w'; c_schema := Conflict.schema;
             c_tasks :=
               [({| future_id := 1; future_result := retry_result |},
                 {| param_schema := Conflict.schema;
                    param_load_id := "L1";
                    param_files := ["s.t.jsonl.1.jsonl"] |})];
             c_schema_updates := []; c_row_counts := ∅;
             c_next_future := 2; c_polls := 1 |}).
Proof.
  destruct (gather_task_conflict Scenario.env NullExecutor Conflict.st
              Conflict.pending Conflict.params Conflict.updates 1%Z
              ["L1/t.0.jsonl"] {["t" := 1%Z]} [])
    as (w_del & retry_result & w' & Hdel & Hgone & _ & Hrun & _).
  - reflexivity.
  - reflexivity.
  - vm_compute. reflexivity.
  - apply NoDup_singleton.
  - intros f Hf. apply list_elem_of_singleton in Hf as ->.
    exists "L1", {| package_files := ["L1/t.0.jsonl"];
                    package_schema := None;
                    package_schema_updates := None |}.
    split; [by vm_compute|]. simpl. apply list_elem_of_singleton. reflexivity.
  - reflexivity.
  - exists w_del, retry_result, w'.
    split; [exact Hdel|].
    split; [apply Hgone; apply list_elem_of_singleton; reflexivity|].
    rewrite Hrun. reflexivity.
Defined.

(** ** The fallback to a single worker *)

Section FallbackFacts.

Variable env : Collaborators.
Variable rounds : nat.

Lemma external_pool {A : Type} (c : driver_call) (body : St World A) self :
  pool (external c body self).2 = pool self.
Proof.
  unfold external. destruct (faults self _); [done|].
  by destruct (body (world self)).
Qed.

Lemma external_calls {A : Type} (c : driver_call) (body : St World A) self :
  calls (external c body self).2
  = calls self ++ [(c, outcome (external c body self).1)].
Proof.
  unfold external. destruct (faults self _); [done|].
  by destruct (body (world self)).
Qed.

Lemma create_temp_purges load_id self :
  (external (CreateTempLoadPackage load_id)
     (create_temp_load_package load_id) self).1 = Ok tt ->
  temp (world (external (CreateTempLoadPackage load_id)
                 (create_temp_load_package load_id) self).2) !! load_id
  = Some empty_package.
Proof.
  unfold external. destruct (faults self _); [done|].
  intros _. simpl. apply lookup_insert_eq.
Qed.

Lemma conflict_decide {A : Type} (h : St Normalize A) (e : exn) :
  conflict h e
  = if decide (e = CannotCoerceColumnException) then Some h else None.
Proof. by destruct e. Qed.

(** [spool_schema_files] step by step: the package creation, the
    parallel spool, and after a conflict the second creation and the single
    spool. *)
Lemma spool_schema_files_steps (load_id name : string)
    (files : list string) (self : Normalize) :
  let created :=
    external (CreateTempLoadPackage load_id)
      (create_temp_load_package load_id) self in
  let parallel :=
    spool_files name load_id (map_parallel env (pool self) rounds)
      files created.2 in
  let recreated :=
    external (CreateTempLoadPackage load_id)
      (create_temp_load_package load_id) parallel.2 in
  let single :=
    spool_files name load_id (map_single env) files recreated.2 in
  spool_schema_files env rounds load_id name files self
  = match created.1 with
    | Raise e => (Raise e, created.2)
    | Ok _ =>
        match parallel.1 with
        | Ok _ => (Ok load_id, parallel.2)
        | Raise e =>
            if decide (e = CannotCoerceColumnException) then
              match recreated.1 with
              | Raise e' => (Raise e', recreated.2)
              | Ok _ =>
                  (match single.1 with
                   | Ok _ => Ok load_id
                   | Raise e' => Raise e'
                   end, single.2)
              end
            else (Raise e, parallel.2)
        end
    end.
Proof.
  intros created parallel recreated single.
  unfold spool_schema_files, mbind, St_bind, get, try_except.
  fold created.
  pose proof (external_pool (CreateTempLoadPackage load_id)
                (create_temp_load_package load_id) self) as Hpool.
  fold created in Hpool.
  destruct created as [[[]|e] s0] eqn:Hc; cbn [fst snd] in *; [|done].
  rewrite Hpool. fold parallel.
  destruct parallel as [[[]|e] s1] eqn:Hp; cbn [fst snd] in *; [done|].
  rewrite conflict_decide.
  destruct (decide (e = CannotCoerceColumnException)) as [->|Hne]; [|done].
  fold recreated.
  destruct recreated as [[[]|e'] s2] eqn:Hr; cbn [fst snd] in *; [|done].
  fold single. by destruct single as [[[]|e''] s3].
Qed.

(** X2. [spool_schema_files] first spools with [map_parallel].  If that
    raises a column-coercion conflict, it creates the temp load package
    of the same load id again, which leaves it empty, so that all output
    of the parallel attempt is gone, and spools the same files with
    [map_single]; what that second spool does is what
    [spool_schema_files] does.  Any other exception of the parallel
    spool is the outcome of [spool_schema_files], with no call made after
    it. *)
Theorem spool_schema_files_fallback (load_id schema_name : string)
    (files : list string) (self : Normalize) :
  let created :=
    external (CreateTempLoadPackage load_id)
      (create_temp_load_package load_id) self in
  let parallel :=
    spool_files schema_name load_id (map_parallel env (pool self) rounds)
      files created.2 in
  let recreated :=
    external (CreateTempLoadPackage load_id)
      (create_temp_load_package load_id) parallel.2 in
  let single :=
    spool_files schema_name load_id (map_single env) files recreated.2 in
  let run := spool_schema_files env rounds load_id schema_name files self in
  match created.1 with
  | Raise e => run = (Raise e, created.2)
  | Ok _ =>
      match parallel.1 with
      | Ok _ => run = (Ok load_id, parallel.2)
      | Raise e =>
          if decide (e = CannotCoerceColumnException) then
            calls recreated.2
            = calls parallel.2
                ++ [(CreateTempLoadPackage load_id, outcome recreated.1)]
            /\ match recreated.1 with
               | Raise e' => run = (Raise e', recreated.2)
               | Ok _ =>
                   temp (world recreated.2) !! load_id = Some empty_package
                   /\ run = (match single.1 with
                             | Ok _ => Ok load_id
                             | Raise e' => Raise e'
                             end, single.2)
               end
          else run = (Raise e, parallel.2)
      end
  end.
Proof.
  intros created parallel recreated single run.
  subst run. unfold spool_schema_files, mbind, St_bind, get, try_except.
  fold created.
  pose proof (external_pool (CreateTempLoadPackage load_id)
                (create_temp_load_package load_id) self) as Hpool.
  fold created in Hpool.
  destruct created as [[[]|e] s0] eqn:Hc; cbn [fst snd] in *; [|done].
  rewrite Hpool. fold parallel.
  destruct parallel as [[[]|e] s1] eqn:Hp; cbn [fst snd] in *; [done|].
  rewrite conflict_decide.
  destruct (decide (e = CannotCoerceColumnException)) as [->|Hne]; [|done].
  split; [apply external_calls|].
  pose proof (create_temp_purges load_id s1) as Hpurge.
  fold recreated in Hpurge |- *.
  destruct recreated as [[[]|e'] s2] eqn:Hr; cbn [fst snd] in *; [|done].
  split; [by apply Hpurge|].
  fold single. by destruct single as [[[]|e''] s3].
Qed.

(** The scenario: the parallel spool ends in a conflict with one output
    file in the temp package; the single spool then commits a package
    made of its own two files. *)
Example fallback_run :
  Fallback.run.1 = Ok "L1"
  /\ (package_files <$> processing (world Fallback.run.2) !! "L1")
     = Some ["L1/a.1.jsonl"; "L1/b.2.jsonl"]
  /\ calls Fallback.run.2
     = [(CreateTempLoadPackage "L1", None);
        (LoadSchema "s", Some SchemaNotFoundError);
        (MapFiles "L1" Fallback.files, Some CannotCoerceColumnException);
        (CreateTempLoadPackage "L1", None);
        (LoadSchema "s", Some SchemaNotFoundError);
        (MapFiles "L1" Fallback.files, None);
        (SaveSchema "s", None); (SaveTempSchema "L1", None);
        (SaveTempSchemaUpdates "L1", None); (RaiseIfSignalled, None);
        (CommitTempLoadPackage "L1", None);
        (DeleteExtractedFiles Fallback.files, None)].
Proof. repeat split; by vm_compute. Qed.

End FallbackFacts.

(** ** What a spool publishes *)

Section SpoolEffects.

Ltac crunch map_f :=
  repeat
    (cbn beta iota zeta delta
       [fst snd outcome mret St_ret modify save_schema save_temp_schema
        save_temp_schema_updates delete_extracted_files
        faults log_call set_world set_row_counts world signalled temp
        set_temp set_stored_schemas set_extracted set_processing];
     rewrite ?schema_not_found_decide, ?lookup_insert_eq;
     match goal with
     | |- context [match faults ?s ?n with _ => _ end] =>
         destruct (faults s n) eqn:?
     | |- context [decide (?e = SchemaNotFoundError)] =>
         destruct (decide (e = SchemaNotFoundError))
     | |- context [map_f ?a ?b ?c ?w] =>
         destruct (map_f a b c w) as [[[[? ?] ?]|?] ?] eqn:?
     | |- context [match stored_schemas ?w !! ?n with _ => _ end] =>
         destruct (stored_schemas w !! n) eqn:?
     | |- context [if signalled ?w then _ else _] =>
         destruct (signalled w) eqn:?
     | |- context [match temp ?w !! ?l with _ => _ end] =>
         destruct (temp w !! l) eqn:?
     end).

Lemma spool_files_returns_row_counts (schema_name load_id : string)
    (map_f : TMapFuncType) (files : list string) (self : Normalize) :
  let run := spool_files schema_name load_id map_f files self in
  run.1 = Ok tt ->
  exists schema w updates counts schema' w',
    map_f schema load_id files w = (Ok (updates, counts, schema'), w')
    /\ _row_counts run.2 = counts.
Proof.
  cbv zeta.
  unfold spool_files, load_or_create_schema, try_except, external,
    mbind, St_bind, raise_if_signalled, commit_temp_load_package,
    load_schema.
  crunch map_f.
  all: unfold modify; cbn [fst snd _row_counts log_call set_world set_row_counts];
    intros Hr; try discriminate Hr.
  all: do 6 eexists; split; [eassumption|reflexivity].
Qed.

Lemma spool_files_raises_row_counts (schema_name load_id : string)
    (map_f : TMapFuncType) (files : list string) (self : Normalize) (e : exn) :
  let run := spool_files schema_name load_id map_f files self in
  run.1 = Raise e ->
  _row_counts run.2 = _row_counts self.
Proof.
  cbv zeta.
  unfold spool_files, load_or_create_schema, try_except, external,
    mbind, St_bind, raise_if_signalled, commit_temp_load_package,
    load_schema.
  crunch map_f.
  all: unfold modify; cbn [fst snd _row_counts log_call set_world set_row_counts];
    intros Hr; try discriminate Hr; reflexivity.
Qed.

(** X3. [spool_files] publishes row counts only when it has gone through:
    if it returns, [_row_counts] holds exactly the row counts its mapping
    function returned for these files, whatever was there before; if it
    raises, at whatever step, [_row_counts] is what it was. *)
Theorem spool_files_row_counts (schema_name load_id : string)
    (map_f : TMapFuncType) (files : list string) (self : Normalize) :
  let run := spool_files schema_name load_id map_f files self in
  match run.1 with
  | Ok _ =>
      exists schema w updates counts schema' w',
        map_f schema load_id files w = (Ok (updates, counts, schema'), w')
        /\ _row_counts run.2 = counts
  | Raise _ => _row_counts run.2 = _row_counts self
  end.
Proof.
  intros run.
  pose proof (spool_files_returns_row_counts schema_name load_id map_f files
                self) as Hret.
  pose proof (spool_files_raises_row_counts schema_name load_id map_f files
                self) as Hraise.
  cbv zeta in Hret, Hraise. fold run in Hret, Hraise.
  destruct run.1 as [[]|e].
  - by apply Hret.
  - by apply (Hraise e).
Qed.






End SpoolEffects.

(** ** The run driver *)

Section RunFacts.

Variable env : Collaborators.
Variable rounds : nat.


Lemma external_row_counts {A : Type} (c : driver_call) (body : St World A)
    self :
  _row_counts (external c body self).2 = _row_counts self.
Proof.
  unfold external. destruct (faults self _); [done|].
  by destruct (body (world self)).
Qed.

Lemma external_world_fault {A : Type} (c : driver_call) (body : St World A)
    self :
  faults self (length (calls self)) = None ->
  external c body self
  = ((body (world self)).1,
     log_call c (outcome (body (world self)).1)
       (set_world (body (world self)).2 self)).
Proof.
  intros Hf. unfold external. rewrite Hf. by destruct (body (world self)).
Qed.

(** X6. A run that finds no extracted file is idle: it lists the files
    once, makes no other call, leaves the world untouched, and leaves the
    last-run row counts empty; unless the listing itself fails it returns
    run metrics "idle, nothing pending". *)
Theorem run_no_files (pool_arg : option Executor) (self : Normalize) :
  extracted (world self) = [] ->
  let r := run env rounds pool_arg self in
  world r.2 = world self
  /\ _row_counts r.2 = ∅
  /\ pool r.2 = default NullExecutor pool_arg
  /\ calls r.2 = calls self ++ [(ListFilesToNormalizeSorted, outcome r.1)]
  /\ (faults self (length (calls self)) = None ->
      r.1 = Ok {| was_idle := true; pending_items := 0 |}).
Proof.
  intros Hext. cbv zeta.
  unfold run, mbind, St_bind, modify, external, list_files_to_normalize_sorted,
    gets.
  cbn [faults set_row_counts set_pool calls world].
  destruct (faults self (length (calls self))) as [e|]; [done|].
  rewrite Hext. simpl. done.
Qed.

End RunFacts.

Lemma run_no_files_witness :
  let self := {| world := Scenario.world0; pool := NullExecutor;
                 _row_counts := {["old" := 7%Z]}; calls := [];
                 faults := fun _ => None |} in
  extracted (world self) = []
  /\ (run Scenario.env 3 None self).1
     = Ok {| was_idle := true; pending_items := 0 |}
  /\ _row_counts (run Scenario.env 3 None self).2 = ∅.
Proof.
  intros self.
  assert (Hext : extracted (world self) = []) by reflexivity.
  split; [exact Hext|].
  destruct (run_no_files Scenario.env 3 None self Hext)
    as (_ & Hrc & _ & _ & Hok).
  split; [apply Hok; reflexivity|exact Hrc].
Defined.

Section RunRowCounts.

Variable env : Collaborators.
Variable rounds : nat.

Lemma for_each_last {S A : Type} (body : A -> St S unit) (l : list A) :
  forall s s',
    l <> [] ->
    for_each l body s = (Ok tt, s') ->
    exists l' x s_mid,
      l = l' ++ [x]
      /\ for_each l' body s = (Ok tt, s_mid)
      /\ body x s_mid = (Ok tt, s').
Proof.
  induction l as [|y tl IH]; intros s s' Hne Hrun; [done|].
  cbn [for_each] in Hrun. unfold mbind, St_bind in Hrun.
  destruct (body y s) as [[[]|e] s1] eqn:Hy; [|done].
  destruct tl as [|z tl'].
  - simpl in Hrun. injection Hrun as <-.
    exists [], y, s. done.
  - destruct (IH s1 s' ltac:(done) Hrun) as (l' & x & s_mid & -> & Hl' & Hx).
    exists (y :: l'), x, s_mid. split; [done|]. split; [|done].
    cbn [for_each]. unfold mbind, St_bind. by rewrite Hy.
Qed.

Lemma group_by_schema_from_nonempty (files : list string) :
  forall current,
    files <> [] \/ is_Some current ->
    group_by_schema_from current files <> [].
Proof.
  induction files as [|f tl IH]; intros current Hne.
  - destruct Hne as [?|[g ->]]; done.
  - cbn [group_by_schema_from].
    destruct (parse_normalize_file_name f) as [parsed|e]; [|done].
    destruct current as [[k g]|].
    + destruct (String.eqb k _); [|done].
      apply IH. right. by eexists.
    + apply IH. right. by eexists.
Qed.

(** A spool of a schema group sets the row counts to what the mapping
    function that went through returned, or leaves them alone. *)
Lemma spool_schema_files_row_counts (load_id name : string)
    (files : list string) (self : Normalize) :
  let run := spool_schema_files env rounds load_id name files self in
  match run.1 with
  | Ok _ =>
      exists (map_f : TMapFuncType) schema w updates counts schema' w',
        ((exists p, map_f = map_parallel env p rounds)
         \/ map_f = map_single env)
        /\ map_f schema load_id files w = (Ok (updates, counts, schema'), w')
        /\ _row_counts run.2 = counts
  | Raise _ => _row_counts run.2 = _row_counts self
  end.
Proof.
  pose proof (spool_schema_files_steps env rounds load_id name files self)
    as H.
  cbv zeta in *. rewrite H. clear H.
  pose proof (external_row_counts (CreateTempLoadPackage load_id)
                (create_temp_load_package load_id) self) as Hc.
  set (created := external _ _ self) in *.
  pose proof (spool_files_returns_row_counts name load_id
                (map_parallel env (pool self) rounds) files created.2) as Hp.
  pose proof (spool_files_raises_row_counts name load_id
                (map_parallel env (pool self) rounds) files created.2) as Hp'.
  cbv zeta in Hp, Hp'.
  set (parallel := spool_files _ _ (map_parallel _ _ _) _ _) in *.
  pose proof (external_row_counts (CreateTempLoadPackage load_id)
                (create_temp_load_package load_id) parallel.2) as Hr.
  set (recreated := external _ _ parallel.2) in *.
  pose proof (spool_files_returns_row_counts name load_id (map_single env)
                files recreated.2) as Hs.
  pose proof (spool_files_raises_row_counts name load_id (map_single env)
                files recreated.2) as Hs'.
  cbv zeta in Hs, Hs'.
  set (single := spool_files _ _ (map_single env) _ _) in *.
  destruct created.1 as [[]|e]; [|done].
  destruct parallel.1 as [[]|e].
  - cbn [fst snd].
    destruct (Hp eq_refl) as (schema & w & u & c & s' & w' & Hmap & Hrc).
    exists (map_parallel env (pool self) rounds), schema, w, u, c, s', w'.
    split; [left; by eexists|done].
  - specialize (Hp' e eq_refl).
    destruct (decide (e = CannotCoerceColumnException)) as [->|Hne].
    + destruct recreated.1 as [[]|e'].
      * cbn [fst snd].
        destruct single.1 as [[]|e''].
        -- destruct (Hs eq_refl)
             as (schema & w & u & c & s' & w' & Hmap & Hrc).
           exists (map_single env), schema, w, u, c, s', w'.
           split; [by right|done].
        -- specialize (Hs' e'' eq_refl). congruence.
      * cbn [fst snd]. congruence.
    + cbn [fst snd]. congruence.
Qed.

(** X7. After a run that returns, the last-run row counts are empty if the
    run was idle, and otherwise are exactly the row counts that a mapping
    function returned for the files of the last schema group alone: the
    run empties [_row_counts] at its start and each spool replaces them, so
    nothing of the earlier groups is kept. *)
Theorem run_row_counts (pool_arg : option Executor) (self : Normalize)
    (metrics : TRunMetrics) :
  let r := run env rounds pool_arg self in
  r.1 = Ok metrics ->
  if was_idle metrics then _row_counts r.2 = ∅
  else
    exists earlier name schema_files,
      group_by_schema (Py.sorted (extracted (world self)))
      = earlier ++ [Ok (name, schema_files)]
      /\ exists (map_f : TMapFuncType) load_id schema w updates counts
                schema' w',
           ((exists p, map_f = map_parallel env p rounds)
            \/ map_f = map_single env)
           /\ map_f schema load_id schema_files w
              = (Ok (updates, counts, schema'), w')
           /\ _row_counts r.2 = counts.
Proof.
  cbv zeta.
  unfold run, mbind, St_bind. cbn [modify].
  rewrite (surjective_pairing
             (external ListFilesToNormalizeSorted
                list_files_to_normalize_sorted
                (set_row_counts ∅ (set_pool (default NullExecutor pool_arg) self)))).
  pose proof (external_row_counts ListFilesToNormalizeSorted
                list_files_to_normalize_sorted
                (set_row_counts ∅ (set_pool (default NullExecutor pool_arg) self)))
    as Hrc1.
  assert (Hfiles : forall files,
            (external ListFilesToNormalizeSorted list_files_to_normalize_sorted
               (set_row_counts ∅
                  (set_pool (default NullExecutor pool_arg) self))).1
            = Ok files ->
            files = Py.sorted (extracted (world self))).
  { unfold external. cbn [faults set_row_counts set_pool calls world].
    destruct (faults self _); [done|].
    simpl. by intros files [= <-]. }
  set (listed := external _ _ _) in *.
  destruct listed.1 as [files|e] eqn:Hl; [|done].
  specialize (Hfiles files eq_refl).
  destruct files as [|f tl].
  - simpl. intros [= <-]. simpl. by rewrite Hrc1.
  - destruct (for_each (group_by_schema (f :: tl)) (spool_group env rounds)
                listed.2) as [[[]|e] s2] eqn:Hfe; [|done].
    pose proof (external_row_counts ListFilesToNormalizeSorted
                  list_files_to_normalize_sorted s2) as Hrc2.
    destruct (external ListFilesToNormalizeSorted
                list_files_to_normalize_sorted s2) as [[pending|e] s3];
      [|done].
    cbn [fst snd mret St_ret] in *. intros [= <-]. cbn [was_idle].
    destruct (for_each_last _ _ _ _
                (group_by_schema_from_nonempty (f :: tl) None
                   ltac:(by left)) Hfe)
      as (earlier & x & s_mid & Hgroups & _ & Hx).
    unfold spool_group, mbind, St_bind in Hx.
    destruct x as [[name schema_files]|e]; [|done].
    cbn [lift] in Hx.
    destruct (external Now now_timestamp s_mid) as [[load_id|e] s4]; [|done].
    cbn [modify] in Hx.
    pose proof (spool_schema_files_row_counts load_id name schema_files
                  (set_world
                     (collector_update "Items" 0
                        (collector_update "Files" 0 (world s4))) s4)) as Hsp.
    cbv zeta in Hsp.
    destruct (spool_schema_files env rounds load_id name schema_files _)
      as [[lid|e] s5]; [|done].
    cbn [fst snd mret St_ret] in *. injection Hx as <-.
    exists earlier, name, schema_files. split; [by rewrite <- Hfiles|].
    destruct Hsp as (map_f & schema & w & u & c & s' & w' & Hmf & Hmap & Hrc).
    exists map_f, load_id, schema, w, u, c, s', w'.
    split; [done|]. split; [done|]. congruence.
Qed.

End RunRowCounts.

Lemma run_row_counts_witness :
  let r := run Scenario.env 5 None TwoGroups.self in
  r.1 = Ok {| was_idle := false; pending_items := 0 |}
  /\ _row_counts r.2 = {["b" := 2%Z]}
  /\ exists earlier name schema_files,
       group_by_schema (Py.sorted (extracted (world TwoGroups.self)))
       = earlier ++ [Ok (name, schema_files)]
       /\ exists (map_f : TMapFuncType) load_id schema w updates counts
                 schema' w',
            map_f schema load_id schema_files w
              = (Ok (updates, counts, schema'), w')
            /\ _row_counts r.2 = counts.
Proof.
  intros r.
  assert (H : r.1 = Ok {| was_idle := false; pending_items := 0 |})
    by (by vm_compute).
  split; [exact H|]. split; [by vm_compute|].
  destruct (run_row_counts Scenario.env 5 None TwoGroups.self _ H)
    as (earlier & name & schema_files & Hg & map_f & load_id & schema & w
        & u & c & s' & w' & _ & Hmap & Hrc).
  exists earlier, name, schema_files. split; [exact Hg|].
  exists map_f, load_id, schema, w, u, c, s', w'. split; [exact Hmap|exact Hrc].
Defined.

(** ** The number and the shape of the batches *)

Section BatchFacts.

Lemma chunks_from_bounded {A : Type} fuel : forall (seq : list A) n,
  Forall (fun chunk => (length chunk <= n)%nat) (Group.chunks_from fuel seq n).
Proof.
  induction fuel as [|fuel IH]; intros seq n; [by destruct seq|].
  destruct seq as [|x xs]; [constructor|].
  cbn [Group.chunks_from]. constructor; [|apply IH].
  rewrite length_take. lia.
Qed.

Lemma concat_length_le {A : Type} (l : list (list A)) n :
  Forall (fun chunk => (length chunk <= n)%nat) l ->
  (length (concat l) <= length l * n)%nat.
Proof.
  induction 1 as [|c tl Hc _ IH]; simpl; [lia|].
  rewrite length_app. lia.
Qed.

Lemma concat_length_ge {A : Type} (l : list (list A)) :
  Forall (fun chunk => chunk <> []) l ->
  (length l <= length (concat l))%nat.
Proof.
  induction 1 as [|c tl Hc _ IH]; simpl; [lia|].
  rewrite length_app. destruct c; [done|]. simpl. lia.
Qed.

Lemma pop_Forall {A : Type} (P : A -> Prop) (l : list A) :
  forall x l', Py.pop l = Ok (x, l') -> Forall P l -> Forall P l'.
Proof.
  induction l as [|y tl IH]; intros x l' Hpop Hall; [done|].
  simpl in Hpop. destruct tl as [|z tl'].
  - injection Hpop as <- <-. constructor.
  - destruct (Py.pop (z :: tl')) as [[y' tl'']|] eqn:Htl; [|done].
    injection Hpop as <- <-.
    apply Forall_cons in Hall as [Hy Hall].
    constructor; [done|]. by eapply IH.
Qed.

Lemma distribute_nonempty (items : list (Z * string)) :
  forall l_idx rem idx chunk_files r,
    Forall (fun chunk => chunk <> []) chunk_files ->
    Group.distribute items l_idx rem idx chunk_files = Ok r ->
    Forall (fun chunk => chunk <> []) r.2.
Proof.
  induction items as [|[i file] rest IH];
    intros l_idx rem idx chunk_files r Hne Hrun.
  - simpl in Hrun. by injection Hrun as <-.
  - cbn [Group.distribute] in Hrun.
    destruct (Py.index chunk_files _) as [pos|]; [|done].
    cbn [mbind result_bind] in Hrun.
    eapply IH; [|exact Hrun].
    apply Forall_alter; [done|].
    intros chunk _ _. by destruct chunk.
Qed.

Lemma redistribute_nonempty (remainder_l : nat) :
  forall l_idx idx chunk_files res,
    Forall (fun chunk => chunk <> []) chunk_files ->
    Group.redistribute remainder_l l_idx idx chunk_files = Ok res ->
    Forall (fun chunk => chunk <> []) res.
Proof.
  induction remainder_l as [|r IH]; intros l_idx idx chunk_files res Hne Hrun.
  - simpl in Hrun. by injection Hrun as <-.
  - cbn [Group.redistribute] in Hrun.
    destruct (Py.pop chunk_files) as [[popped rest]|] eqn:Hpop; [|done].
    cbn [mbind result_bind] in Hrun.
    destruct (Group.distribute _ _ _ _ rest) as [[idx' rest']|] eqn:Hd;
      [|done].
    cbn [mbind result_bind] in Hrun.
    destruct idx' as [i|]; [|done].
    eapply IH; [|exact Hrun].
    apply (distribute_nonempty _ _ _ _ _ _ (pop_Forall _ _ _ _ Hpop Hne) Hd).
Qed.

(** X8. For a worker count [n >= 1], [group_worker_files] returns exactly
    [min(n, len(files))] batches and none of them is empty: [n] batches
    when there are at least [n] files, one single-file batch per file when
    there are fewer files than workers. *)
Theorem group_worker_files_batch_count (files : list string) (n : Z) :
  (1 <= n)%Z ->
  exists batches,
    Group.group_worker_files files n = Ok batches
    /\ length batches = Nat.min (Z.to_nat n) (length files)
    /\ Forall (fun batch => batch <> []) batches.
Proof.
  intros Hn.
  unfold Group.group_worker_files.
  destruct (Z.eqb_spec n 0) as [|_]; [lia|].
  rewrite <- (sorted_length files).
  set (sfiles := Py.sorted files).
  set (L := length sfiles).
  set (c := Z.to_nat (Z.max (Z.of_nat L / n) 1)).
  assert (Hc : (1 <= c)%nat) by (subst c; lia).
  unfold Group.chunks. destruct c as [|c'] eqn:Ec; [lia|].
  rewrite <- Ec in *. clear Ec c'. cbn [mbind result_bind].
  set (cs := Group.chunks_from (length sfiles) sfiles c).
  assert (Hcat : concat cs = sfiles) by (by apply chunks_from_concat).
  assert (Hne : Forall (fun chunk => chunk <> []) cs)
    by (by apply chunks_from_nonempty).
  pose proof (concat_length_le cs c (chunks_from_bounded _ _ _)) as Hle.
  pose proof (concat_length_ge cs Hne) as Hge.
  rewrite Hcat in Hle, Hge. fold L in Hle, Hge.
  assert (Hcn : (Z.of_nat c * n <= Z.of_nat L)%Z \/ (c = 1%nat /\ (L < Z.to_nat n)%nat)).
  { destruct (Z_lt_le_dec (Z.of_nat L / n) 1) as [Hsmall|Hbig].
    - right. assert (Z.of_nat L / n = 0)%Z as Hz.
      { pose proof (Z.div_pos (Z.of_nat L) n). lia. }
      apply Z.div_small_iff in Hz; [|lia]. subst c. lia.
    - left. assert (Z.of_nat c = Z.of_nat L / n)%Z as -> by (subst c; lia).
      pose proof (Z.mul_div_le (Z.of_nat L) n ltac:(lia)). lia. }
  destruct (Z_le_gt_dec (Z.of_nat (length cs) - n) 0) as [Hrem|Hrem].
  - replace (Z.to_nat (Z.of_nat (length cs) - n)) with 0%nat by lia.
    exists cs. split; [done|]. split; [|done].
    destruct Hcn as [Hcn|[-> Hlt]]; [nia|lia].
  - set (N := Z.to_nat n).
    assert (HN : (N < length cs)%nat) by lia.
    destruct (chunks_from_drop N (length sfiles) sfiles c) as [Hlt Hrest];
      [done..|].
    fold cs in Hrest. fold L in Hlt, Hrest.
    destruct Hcn as [Hcn|[-> Hlt']]; [|lia].
    assert (Hfit : (L - N * c <= N)%nat).
    { assert (Z.of_nat c = Z.of_nat L / n)%Z as Hcz.
      { subst c. destruct (Z_lt_le_dec (Z.of_nat L / n) 1); [|lia].
        assert (Z.of_nat L / n = 0)%Z as Hz.
        { pose proof (Z.div_pos (Z.of_nat L) n). lia. }
        apply Z.div_small_iff in Hz; lia. }
      pose proof (Z.div_mod (Z.of_nat L) n ltac:(lia)) as Hdm.
      pose proof (Z.mod_pos_bound (Z.of_nat L) n ltac:(lia)) as Hmb.
      rewrite <- Hcz in Hdm. subst N. nia. }
    destruct (redistribute_ok (drop N cs) (take N cs) 0 None)
      as (res & Hres & Hlen & _).
    + by apply Forall_drop.
    + done.
    + rewrite Hrest, length_take. lia.
    + rewrite take_drop, length_drop in Hres.
      replace (Z.to_nat (Z.of_nat (length cs) - n))
        with (length cs - N)%nat by lia.
      exists res. split; [done|]. split.
      * rewrite Hlen, length_take. lia.
      * eapply redistribute_nonempty; [exact Hne|exact Hres].
Qed.

Lemma group_worker_files_batch_count_witness :
  (1 <= 4)%Z
  /\ exists batches,
       Group.group_worker_files ["a"; "b"; "c"; "d"; "e"; "f"; "g"] 4
         = Ok batches
       /\ length batches = 4%nat
       /\ Forall (fun batch => batch <> []) batches.
Proof.
  split; [lia|].
  apply (group_worker_files_batch_count ["a"; "b"; "c"; "d"; "e"; "f"; "g"] 4).
  lia.
Defined.

End BatchFacts.

(** ** Worker counts that are not positive, and file counts that divide *)

Section BatchEdges.

Lemma distribute_first_out_of_range (items : list (Z * string)) (file : string)
    (l_idx remainder_l : Z) (idx : option Z) (chunk_files : list (list string)) :
  (Z.of_nat (length chunk_files) < l_idx + remainder_l)%Z ->
  (0 < l_idx + remainder_l)%Z ->
  Group.distribute ((0%Z, file) :: items) l_idx remainder_l idx chunk_files
  = Raise IndexError.
Proof.
  intros Hout Hpos. cbn [Group.distribute]. unfold Py.index.
  destruct (Z.leb_spec 0 (- l_idx - 0 - remainder_l)); [lia|].
  destruct (Z.leb_spec 0 (Z.of_nat (length chunk_files)
                          + (- l_idx - 0 - remainder_l))); [lia|].
  done.
Qed.

(** X9. A worker count that is not positive makes [group_worker_files]
    raise, whatever the files: [ZeroDivisionError] for zero, from the
    division that computes the chunk size, and [IndexError] for a negative
    count, from the redistribution loop, which then has more chunks to give
    away than chunks to receive them. *)
Theorem group_worker_files_no_workers (files : list string) (n : Z) :
  (n <= 0)%Z ->
  Group.group_worker_files files n
  = Raise (if (n =? 0)%Z then ZeroDivisionError else IndexError).
Proof.
  intros Hn. unfold Group.group_worker_files.
  destruct (Z.eqb_spec n 0) as [|Hnz]; [done|].
  set (sfiles := Py.sorted files).
  assert (Hc : Z.to_nat (Z.max (Z.of_nat (length sfiles) / n) 1) = 1%nat).
  { pose proof (Z.div_mod (Z.of_nat (length sfiles)) n ltac:(lia)) as Hdm.
    pose proof (Z.mod_neg_bound (Z.of_nat (length sfiles)) n ltac:(lia)).
    assert (Z.of_nat (length sfiles) / n <= 0)%Z by nia. lia. }
  rewrite Hc. cbn [Group.chunks mbind result_bind].
  set (cs := Group.chunks_from (length sfiles) sfiles 1).
  assert (Hne : Forall (fun chunk => chunk <> []) cs)
    by (apply chunks_from_nonempty; lia).
  destruct (Z.to_nat (Z.of_nat (length cs) - n)) as [|r] eqn:Hr; [lia|].
  cbn [Group.redistribute].
  destruct (decide (cs = [])) as [->|Hcs0]; [done|].
  destruct (exists_last Hcs0) as (pre & last & Hcs).
  rewrite Hcs in *. rewrite pop_snoc. cbn [mbind result_bind].
  rewrite Forall_app, Forall_singleton in Hne. destruct Hne as [_ Hlast].
  destruct (rev last) as [|y ys] eqn:Hrev.
  { apply (f_equal (@rev _)) in Hrev. rewrite rev_involutive in Hrev.
    simpl in Hrev. congruence. }
  unfold Py.enumerate. cbn [Py.enumerate_from].
  rewrite distribute_first_out_of_range; [done| |lia].
  rewrite length_app in Hr. simpl in Hr. lia.
Qed.

Lemma group_worker_files_no_workers_witness :
  (-2 <= 0)%Z
  /\ Group.group_worker_files ["a"; "b"; "c"] (-2) = Raise IndexError.
Proof.
  split; [lia|].
  apply (group_worker_files_no_workers ["a"; "b"; "c"] (-2)). lia.
Defined.

Lemma chunks_from_exact {A : Type} (n : nat) : forall fuel q (seq : list A),
  (1 <= n)%nat ->
  length seq = (q * n)%nat ->
  (q <= fuel)%nat ->
  Forall (fun chunk => length chunk = n) (Group.chunks_from fuel seq n)
  /\ length (Group.chunks_from fuel seq n) = q.
Proof.
  induction fuel as [|fuel IH]; intros q seq Hn Hlen Hfuel.
  - assert (q = 0)%nat as -> by lia. destruct seq; done.
  - destruct seq as [|x xs].
    + simpl in Hlen. assert (q = 0)%nat as -> by nia. done.
    + destruct q as [|q']; [done|].
      cbn [Group.chunks_from].
      destruct (IH q' (drop n (x :: xs)) Hn) as [Hall Hcount].
      * rewrite length_drop. lia.
      * lia.
      * split; [|simpl; by rewrite Hcount].
        constructor; [|done]. rewrite length_take. lia.
Qed.

(** X10. When the number of files is a multiple of the worker count, or
    smaller than it, the batches are consecutive runs of the sorted file
    list, all of the same size [max(len(files) // n, 1)]: joined in order
    they give [sorted(files)] back. *)
Theorem group_worker_files_even (files : list string) (n : Z) :
  (1 <= n)%Z ->
  (Z.of_nat (length files) mod n = 0 \/ Z.of_nat (length files) < n)%Z ->
  exists batches,
    Group.group_worker_files files n = Ok batches
    /\ concat batches = Py.sorted files
    /\ Forall (fun batch =>
                 Z.of_nat (length batch)
                 = Z.max (Z.of_nat (length files) / n) 1) batches.
Proof.
  intros Hn Heven.
  unfold Group.group_worker_files.
  destruct (Z.eqb_spec n 0) as [|_]; [lia|].
  rewrite <- (sorted_length files) in *.
  set (sfiles := Py.sorted files) in *.
  set (L := length sfiles) in *.
  destruct (Z.to_nat (Z.max (Z.of_nat L / n) 1)) as [|c'] eqn:Ec; [lia|].
  set (c := S c') in *.
  assert (Hcz : Z.of_nat c = Z.max (Z.of_nat L / n) 1) by lia.
  rewrite <- Hcz. clear Ec.
  assert (Hc : (1 <= c)%nat) by (subst c; lia).
  assert (Hq : exists q, L = (q * c)%nat /\ (Z.of_nat q <= n)%Z).
  { destruct Heven as [Hmod|Hlt].
    - destruct (Z.eqb_spec (Z.of_nat L) 0) as [Hz|Hnz].
      + exists 0%nat. lia.
      + apply Z.div_exact in Hmod; [|lia].
        assert (1 <= Z.of_nat L / n)%Z by nia.
        exists (Z.to_nat n). nia.
    - exists L. assert (Z.of_nat L / n = 0)%Z as Hz
        by (apply Z.div_small; lia).
      lia. }
  destruct Hq as (q & HL & Hqn).
  destruct (chunks_from_exact c L q sfiles Hc HL ltac:(nia)) as [Hall Hcount].
  unfold Group.chunks. subst c. cbn [mbind result_bind].
  fold L. rewrite Hcount.
  replace (Z.to_nat (Z.of_nat q - n)) with 0%nat by lia.
  eexists. split; [done|]. split.
  - by apply chunks_from_concat.
  - eapply Forall_impl; [exact Hall|]. intros batch Hb. simpl in Hb. lia.
Qed.

Lemma group_worker_files_even_witness :
  (1 <= 2)%Z
  /\ (Z.of_nat (length ["d"; "b"; "a"; "c"]) mod 2 = 0
      \/ Z.of_nat (length ["d"; "b"; "a"; "c"]) < 2)%Z
  /\ exists batches,
       Group.group_worker_files ["d"; "b"; "a"; "c"] 2 = Ok batches
       /\ concat batches = Py.sorted ["d"; "b"; "a"; "c"]
       /\ Forall (fun batch =>
                    Z.of_nat (length batch)
                    = Z.max (Z.of_nat (length ["d"; "b"; "a"; "c"]) / 2) 1)
                 batches.
Proof.
  split; [lia|]. split; [by left|].
  apply (group_worker_files_even ["d"; "b"; "a"; "c"] 2); [lia|by left].
Defined.

End BatchEdges.

(** ** What a worker writes, and where *)

Section WorkerFrame.

Variable env : Collaborators.

Global Instance same_inputs_preorder : PreOrder same_inputs.
Proof.
  split.
  - intros w. by repeat split.
  - intros a b c (H1 & H2 & H3 & H4 & H5) (G1 & G2 & G3 & G4 & G5).
    repeat split; congruence.
Qed.

Global Instance worker_writes_preorder load_id : PreOrder (worker_writes load_id).
Proof.
  split.
  - intros w. split; [reflexivity|]. split; [done|].
    split; [exists []; by rewrite app_nil_r|lia].
  - intros a b c (H1 & H2 & (n1 & H3) & H4) (G1 & G2 & (n2 & G3) & G4).
    split; [by etransitivity|]. split.
    + intros other Ho. rewrite G2, H2; done.
    + split; [|lia]. exists (n1 ++ n2). by rewrite G3, H3, app_assoc.
Qed.

Global Instance worker_writes_locals_preorder load_id :
  PreOrder (worker_writes_locals load_id).
Proof.
  split.
  - intros st. unfold worker_writes_locals. reflexivity.
  - intros a b c Hab Hbc. unfold worker_writes_locals in *. by etransitivity.
Qed.

Lemma close_all_writes load_id fmt tables : forall closed w,
  worker_writes load_id w (close_all load_id fmt tables closed w).2.
Proof.
  induction tables as [|t tl IH]; intros closed w; cbn [close_all].
  - reflexivity.
  - etransitivity; [|apply IH].
    split; [by repeat split|]. split.
    + intros other Ho. cbn [temp set_temp set_next_file_id].
      by rewrite lookup_insert_ne.
    + split; [|cbn; lia]. cbn [temp set_temp set_next_file_id].
      rewrite lookup_insert_eq. cbn. by eexists.
Qed.

Ltac same_world :=
  intros; unfold worker_writes_locals; cbn; reflexivity.

Lemma close_writers_writes ref load_id :
  respects (worker_writes_locals load_id) (close_writers ref load_id).
Proof.
  apply respects_modify. intros st. unfold worker_writes_locals.
  cbn [log_worker_call load_storages].
  destruct (load_storages st !! ref) as [storage|]; [|reflexivity].
  destruct (close_all _ _ _ _ _) as [closed w] eqn:Hc. cbn.
  change w with (closed, w).2. rewrite <- Hc.
  apply close_all_writes.
Qed.

Lemma append_format_writes load_id ref fmt :
  respects (worker_writes_locals load_id) (append_format ref fmt).
Proof.
  destruct ref; cbn [append_format].
  - apply respects_bind; [apply _| |intros; apply respects_ret; apply _].
    apply respects_modify. intros st. unfold worker_writes_locals. cbn.
    split; [by repeat split|]. split; [done|].
    split; [exists []; by rewrite app_nil_r|apply Z.le_refl].
  - apply respects_ret; apply _.
Qed.

Lemma w_normalize_files_locals_writes load_id files :
  respects (worker_writes_locals load_id)
    (w_normalize_files_locals env load_id files).
Proof.
  unfold w_normalize_files_locals, normalize_file, write_empty_jobs,
    write_empty_file, call_normalizer, _get_items_normalizer,
    _get_load_storage.
  repeat first
    [ apply close_writers_writes
    | apply append_format_writes
    | apply respects_modify; same_world
    | respects_step ]; apply _.
Qed.


End WorkerFrame.

(** ** The mapping functions and the world *)

Section MapperFrame.

Variable env : Collaborators.
Variable pool : Executor.

Global Instance coordinator_same_inputs_preorder :
  PreOrder coordinator_same_inputs.
Proof.
  split.
  - intros st. unfold coordinator_same_inputs. reflexivity.
  - intros a b c Hab Hbc. unfold coordinator_same_inputs in *.
    by etransitivity.
Qed.

Lemma w_normalize_files_same_inputs stored_schema load_id files :
  respects same_inputs (w_normalize_files env stored_schema load_id files).
Proof.
  intros w.
  pose proof (w_normalize_files_locals_writes env load_id files
                (init_worker w stored_schema)) as H.
  unfold worker_writes_locals in H. unfold w_normalize_files.
  destruct (w_normalize_files_locals _ _ _ _). apply H.
Qed.










Lemma map_single_same_inputs (schema : Schema) (load_id : string)
    (files : list string) :
  respects same_inputs (map_single env schema load_id files).
Proof.
  unfold map_single.
  apply respects_bind; [apply _|apply w_normalize_files_same_inputs|].
  intros [[[updates items] closed] counts].
  destruct (update_table updates schema) as [r schema'].
  repeat first
    [ apply respects_modify; intros; by repeat split
    | respects_step ]; apply _.
Qed.



End MapperFrame.

(** ** The worker's [finally], and the row counts it returns *)

Section WorkerEnd.

Variable env : Collaborators.

Global Instance no_close_added_preorder : PreOrder no_close_added.
Proof.
  split.
  - intros st. exists []. by rewrite app_nil_r.
  - intros a b c (l1 & H1 & F1) (l2 & H2 & F2).
    exists (l1 ++ l2). split; [by rewrite H2, H1, app_assoc|].
    by apply Forall_app.
Qed.

Global Instance row_counts_kept_preorder : PreOrder row_counts_kept.
Proof.
  split.
  - intros st. unfold row_counts_kept. done.
  - intros a b c Hab Hbc. unfold row_counts_kept in *. set_solver.
Qed.

Ltac logs_no_close :=
  intros; unfold no_close_added; cbn;
  first [ exists []; by rewrite app_nil_r
        | eexists [_]; split; [reflexivity|by repeat constructor] ].

Lemma get_load_storage_no_close file_format :
  respects no_close_added (_get_load_storage file_format).
Proof.
  unfold _get_load_storage, append_format.
  repeat first
    [ apply respects_modify; logs_no_close
    | respects_step ]; apply _.
Qed.

Lemma loop_no_close files :
  respects no_close_added
    (for_each files (normalize_file env);; write_empty_jobs).
Proof.
  unfold normalize_file, write_empty_jobs, write_empty_file, call_normalizer,
    _get_items_normalizer.
  repeat first
    [ apply get_load_storage_no_close
    | apply respects_modify; logs_no_close
    | respects_step ]; apply _.
Qed.

(** X13. However the loop of a worker ends, by running through or by an
    exception at any file, the worker calls [close_writers] exactly once,
    after every other call it makes on its load storages, and on the
    storage that the variable [load_storage] names at that moment; that
    storage is left without an open writer. *)
Theorem w_normalize_files_closes_once (stored_schema : TStoredSchema)
    (load_id : string) (files : list string) (w : World) :
  let st' :=
    (w_normalize_files_locals env load_id files
       (init_worker w stored_schema)).2 in
  exists before,
    worker_calls st' = before ++ [CloseWriters (load_storage st')]
    /\ Forall (fun c => is_close_writers c = false) before
    /\ (forall storage,
          load_storages st' !! load_storage st' = Some storage ->
          open_writers storage = []).
Proof.
  cbv zeta. set (st := init_worker w stored_schema).
  unfold w_normalize_files_locals, mbind, St_bind. cbn [gets].
  pose proof (get_load_storage_no_close
                (preferred_loader_file_format
                   (destination_capabilities (worker_world st))) st) as H1.
  rewrite get_load_storage_eq in *. cbv zeta in *. cbn [fst snd] in H1.
  set (st1 := match load_storages st !! _ with Some _ => _ | None => _ end)
    in *.
  cbn [modify]. unfold try_finally.
  set (st2 := set_load_storage _ st1).
  pose proof (loop_no_close files st2) as H2.
  unfold mbind, St_bind in H2.
  destruct (match for_each files (normalize_file env) st2 with
            | (Ok a, s') => write_empty_jobs s'
            | (Raise e, s') => (Raise e, s')
            end) as [r st3].
  cbn [snd] in H2.
  assert (H02 : no_close_added st st3).
  { etransitivity; [exact H1|].
    etransitivity; [|exact H2]. exists []. by rewrite app_nil_r. }
  destruct H02 as (added & Hadded & Hnone).
  assert (Hst : worker_calls st = []) by done.
  rewrite Hst in Hadded. simpl in Hadded.
  cbn [get close_writers modify].
  set (st4 := match load_storages (log_worker_call _ st3) !! load_storage st3
              with Some _ => _ | None => _ end).
  assert (Hls : load_storage st4 = load_storage st3).
  { subst st4. cbn [log_worker_call load_storages].
    destruct (load_storages st3 !! load_storage st3); [|done].
    by destruct (close_all _ _ _ _ _). }
  assert (Hcalls : worker_calls st4
                   = worker_calls st3 ++ [CloseWriters (load_storage st3)]).
  { subst st4. cbn [log_worker_call load_storages].
    destruct (load_storages st3 !! load_storage st3); [|done].
    by destruct (close_all _ _ _ _ _). }
  assert (Hopen : forall storage,
            load_storages st4 !! load_storage st3 = Some storage ->
            open_writers storage = []).
  { subst st4. cbn [log_worker_call load_storages].
    destruct (load_storages st3 !! load_storage st3) as [s0|] eqn:Hs0.
    - destruct (close_all _ _ _ _ _). cbn.
      rewrite lookup_alter_eq, Hs0. cbn. by intros storage [= <-].
    - cbn. by rewrite Hs0. }
  assert (Hend : exists before,
            worker_calls st4 = before ++ [CloseWriters (load_storage st4)]
            /\ Forall (fun c => is_close_writers c = false) before
            /\ (forall storage,
                  load_storages st4 !! load_storage st4 = Some storage ->
                  open_writers storage = [])).
  { exists added. rewrite Hls, Hcalls, Hadded. done. }
  destruct r as [rv|e]; exact Hend.
Qed.

Lemma dom_accumulate (partial_updates : list TSchemaUpdate) (items_count : Z)
    (r_counts : gmap string Z) (root_table_name : string) (st : Worker) :
  root_table_name
    ∈ dom (row_counts (accumulate partial_updates items_count r_counts
                         root_table_name st))
  /\ dom (row_counts st)
     ⊆ dom (row_counts (accumulate partial_updates items_count r_counts
                          root_table_name st)).
Proof.
  cbn [accumulate row_counts]. unfold increase_row_count, merge_row_count.
  rewrite dom_insert. split; [set_solver|].
  intros table Htable. apply elem_of_union_r.
  apply elem_of_dom in Htable as [n Hn]. apply elem_of_dom.
  rewrite lookup_union_with, Hn.
  destruct (r_counts !! table); by eexists.
Qed.

Ltac keeps_row_counts :=
  intros; unfold row_counts_kept;
  first [ apply (proj2 (dom_accumulate _ _ _ _ _)) | cbn; done ].

Lemma close_writers_row_counts ref load_id :
  respects row_counts_kept (close_writers ref load_id).
Proof.
  apply respects_modify. intros st. unfold row_counts_kept.
  cbn [log_worker_call load_storages].
  destruct (load_storages st !! ref); [|done].
  by destruct (close_all _ _ _ _ _).
Qed.

Lemma normalize_file_row_counts file :
  respects row_counts_kept (normalize_file env file).
Proof.
  unfold normalize_file, call_normalizer, _get_items_normalizer,
    _get_load_storage, append_format.
  repeat first
    [ apply respects_modify; keeps_row_counts
    | respects_step ]; apply _.
Qed.

Lemma write_empty_jobs_row_counts :
  respects row_counts_kept write_empty_jobs.
Proof.
  unfold write_empty_jobs, write_empty_file.
  repeat first
    [ apply respects_modify; keeps_row_counts
    | respects_step ]; apply _.
Qed.

Lemma normalize_file_covers (file : string) (st st' : Worker) :
  normalize_file env file st = (Ok tt, st') ->
  exists parsed,
    parse_normalize_file_name file = Ok parsed
    /\ normalize_table_identifier env (parsed_table_name parsed)
       ∈ dom (row_counts st').
Proof.
  unfold normalize_file, mbind, St_bind.
  destruct (parse_normalize_file_name file) as [parsed|e]; [|done].
  cbn [lift modify].
  destruct (_get_items_normalizer _ _) as [[[normalizer storage]|e] st1];
    [|done].
  destruct (call_normalizer _ _ _ _ _) as [[[[pu ic] rc]|e] st2]; [|done].
  intros [= <-]. exists parsed. split; [done|].
  apply (proj1 (dom_accumulate pu ic rc _ st2)).
Qed.

Lemma for_each_ok_all {S A : Type} (R : S -> S -> Prop) `{!PreOrder R}
    (body : A -> St S unit) (l : list A) :
  (forall x, respects R (body x)) ->
  forall s s',
    for_each l body s = (Ok tt, s') ->
    forall x, x ∈ l ->
      exists s1 s2, body x s1 = (Ok tt, s2) /\ R s2 s'.
Proof.
  intros Hb. induction l as [|y tl IH]; intros s s' Hrun x Hx.
  - by apply elem_of_nil in Hx.
  - cbn [for_each] in Hrun. unfold mbind, St_bind in Hrun.
    destruct (body y s) as [[[]|e] s1] eqn:Hy; [|done].
    apply elem_of_cons in Hx as [->|Hx].
    + exists s, s1. split; [done|].
      pose proof (respects_for_each R tl body Hb s1) as Htl.
      by rewrite Hrun in Htl.
    + by apply (IH s1 s' Hrun).
Qed.

(** X14. The row counts a worker returns cover every root table of its
    batch: when [w_normalize_files] returns, each file of the batch has a
    well-formed name, and the normalized name of its table is a key of the
    returned row counts, also when the file held no row at all. *)
Theorem w_normalize_files_row_counts_cover (stored_schema : TStoredSchema)
    (load_id : string) (files : list string) (w : World)
    (updates : list TSchemaUpdate) (items : Z) (closed : list string)
    (counts : gmap string Z) :
  (w_normalize_files env stored_schema load_id files w).1
  = Ok (updates, items, closed, counts) ->
  forall file, file ∈ files ->
    exists parsed,
      parse_normalize_file_name file = Ok parsed
      /\ normalize_table_identifier env (parsed_table_name parsed)
         ∈ dom counts.
Proof.
  unfold w_normalize_files.
  set (st := init_worker w stored_schema).
  unfold w_normalize_files_locals, mbind, St_bind. cbn [gets].
  rewrite get_load_storage_eq. cbv zeta.
  set (st1 := match load_storages st !! _ with Some _ => _ | None => _ end).
  cbn [modify]. unfold try_finally.
  set (st2 := set_load_storage _ st1).
  destruct (for_each files (normalize_file env) st2) as [[[]|e] st3] eqn:Hfe.
  - pose proof (write_empty_jobs_row_counts st3) as H34.
    destruct (write_empty_jobs st3) as [r st4].
    pose proof (close_writers_row_counts (load_storage st4) load_id st4)
      as H45.
    cbn [get] in *.
    destruct (close_writers (load_storage st4) load_id st4)
      as [[[]|e] st5] eqn:Hcw; [|by destruct r as [[]|]].
    cbn [snd] in *. destruct r as [[]|e]; [|done].
    cbn [fst mret St_ret]. intros [= _ _ _ <-] file Hfile.
    destruct (for_each_ok_all row_counts_kept (normalize_file env) files
                normalize_file_row_counts _ _ Hfe file Hfile)
      as (s1 & s2 & Hrun & Hkept).
    destruct (normalize_file_covers _ _ _ Hrun) as (parsed & Hp & Hin).
    exists parsed. split; [done|].
    unfold row_counts_kept in *. set_solver.
  - cbn [get].
    destruct (close_writers (load_storage st3) load_id st3) as [[[]|e'] st5];
      done.
Qed.

End WorkerEnd.

Lemma w_normalize_files_row_counts_cover_witness :
  (w_normalize_files Scenario.env Scenario.stored_schema "L1" Scenario.files
     Scenario.world0).1
  = Ok ([[("t1", [{| partial_name := "t1";
                     partial_columns := [("a", "bigint")] |}])]],
        2%Z, ["L1/t2.0.arrow"], {["t1" := 2%Z; "t2" := 0%Z]})
  /\ exists parsed,
       parse_normalize_file_name "s.t2.parquet.1.parquet" = Ok parsed
       /\ normalize_table_identifier Scenario.env (parsed_table_name parsed)
          ∈ dom ({["t1" := 2%Z; "t2" := 0%Z]} : gmap string Z).
Proof.
  assert (H : (w_normalize_files Scenario.env Scenario.stored_schema "L1"
                 Scenario.files Scenario.world0).1
              = Ok ([[("t1", [{| partial_name := "t1";
                                 partial_columns := [("a", "bigint")] |}])]],
                    2%Z, ["L1/t2.0.arrow"], {["t1" := 2%Z; "t2" := 0%Z]}))
    by (by vm_compute).
  split; [exact H|].
  apply (w_normalize_files_row_counts_cover Scenario.env
           Scenario.stored_schema "L1" Scenario.files Scenario.world0
           _ _ _ _ H).
  apply list_elem_of_In. vm_compute. tauto.
Defined.

(** ** One worker: [map_parallel] and [map_single] agree *)

Section OneWorker.

Variable env : Collaborators.
Variable pool : Executor.

Lemma chunks_from_whole {A : Type} (l : list A) :
  l <> [] -> Group.chunks_from (length l) l (length l) = [l].
Proof.
  intros Hne. destruct l as [|x xs]; [done|].
  change (Group.chunks_from (length (x :: xs)) (x :: xs) (length (x :: xs)))
    with (take (length (x :: xs)) (x :: xs)
          :: Group.chunks_from (length xs)
               (drop (length (x :: xs)) (x :: xs)) (length (x :: xs))).
  rewrite (firstn_all (x :: xs)), (drop_all (x :: xs)).
  by destruct (length xs).
Qed.

Lemma group_worker_files_one (files : list string) :
  files <> [] -> Group.group_worker_files files 1 = Ok [Py.sorted files].
Proof.
  intros Hne. unfold Group.group_worker_files. cbn [Z.eqb].
  rewrite Z.div_1_r.
  assert (Hs : Py.sorted files <> []).
  { intros Hs. apply (f_equal length) in Hs.
    rewrite sorted_length in Hs. by destruct files. }
  set (sfiles := Py.sorted files) in *.
  assert (Hlen : (1 <= length sfiles)%nat) by (destruct sfiles; simpl; [done|lia]).
  replace (Z.to_nat (Z.max (Z.of_nat (length sfiles)) 1))
    with (length sfiles) by lia.
  unfold Group.chunks. destruct (length sfiles) as [|n] eqn:Hn; [lia|].
  rewrite <- Hn, chunks_from_whole by done.
  done.
Qed.

Lemma merge_row_count_empty (counts : gmap string Z) :
  merge_row_count ∅ counts = counts.
Proof.
  unfold merge_row_count. apply map_eq. intros k.
  rewrite lookup_union_with, lookup_empty. by destruct (counts !! k).
Qed.

Lemma gather_no_tasks rounds (st : Coordinator) :
  c_tasks st = [] -> gather env pool rounds st = (Ok tt, st).
Proof.
  intros Ht. destruct rounds; cbn [gather]; unfold mbind, St_bind;
    cbn [gets]; by rewrite Ht.
Qed.

(** A finished task whose schema updates merge without a conflict is
    absorbed: the schema is updated, the updates are appended, the metrics
    and the row counts are added, and the task leaves the list. *)
Lemma gather_task_absorbs (st : Coordinator) (pending : Future)
    (params : Params) (updates : list TSchemaUpdate) (items : Z)
    (files : list string) (counts : gmap string Z) (schema' : Schema)
    (tasks' : list (Future * Params)) :
  completes pool (future_id pending) (c_polls st) = true ->
  future_result pending = Ok (updates, items, files, counts) ->
  update_table updates (c_schema st) = (Ok tt, schema') ->
  remove_task (pending, params) (c_tasks st) = Ok tasks' ->
  gather_task env pool (pending, params) st
  = (Ok tt,
     {| c_world :=
          collector_update "Items" items
            (collector_update "Files" (Z.of_nat (length files)) (c_world st));
        c_schema := schema'; c_tasks := tasks';
        c_schema_updates := c_schema_updates st ++ updates;
        c_row_counts := merge_row_count (c_row_counts st) counts;
        c_next_future := c_next_future st; c_polls := c_polls st |}).
Proof.
  intros Hdone Hres Hmerge Hrem.
  unfold gather_task, mbind, St_bind. cbn [gets].
  rewrite Hdone, Hres. cbn [lift].
  unfold try_except, absorb, mbind, St_bind, zoom.
  rewrite Hmerge. cbn [modify gets c_tasks set_c_row_counts set_c_world
                       set_c_schema_updates set_c_schema].
  rewrite Hrem. reflexivity.
Qed.

Lemma gather_single_task (pending : Future) (params : Params)
    (updates : list TSchemaUpdate) (items : Z) (files : list string)
    (counts : gmap string Z) (schema' : Schema) :
  future_result pending = Ok (updates, items, files, counts) ->
  forall rounds (st : Coordinator),
    c_tasks st = [(pending, params)] ->
    update_table updates (c_schema st) = (Ok tt, schema') ->
    (exists k, (c_polls st < k <= c_polls st + rounds)%nat
               /\ completes pool (future_id pending) k = true) ->
    exists polls,
      gather env pool rounds st
      = (Ok tt,
         {| c_world :=
              collector_update "Items" items
                (collector_update "Files" (Z.of_nat (length files))
                   (c_world st));
            c_schema := schema'; c_tasks := [];
            c_schema_updates := c_schema_updates st ++ updates;
            c_row_counts := merge_row_count (c_row_counts st) counts;
            c_next_future := c_next_future st; c_polls := polls |}).
Proof.
  intros Hres. induction rounds as [|rounds IH];
    intros st Htasks Hmerge (k & Hk & Hdone); [lia|].
  cbn [gather]. unfold mbind at 1, St_bind at 1. cbn [gets]. rewrite Htasks.
  unfold mbind at 1, St_bind at 1. cbn [modify].
  set (st1 := set_c_polls (S (c_polls st)) st).
  unfold mbind at 1, St_bind at 1. cbn [for_each].
  unfold mbind at 1, St_bind at 1.
  destruct (completes pool (future_id pending) (S (c_polls st))) eqn:Hnow.
  - rewrite (gather_task_absorbs st1 pending params updates items files
               counts schema' []); [|done..| |].
    + cbn [mret St_ret]. rewrite gather_no_tasks by done.
      by eexists.
    + done.
    + cbn [c_tasks st1 set_c_polls]. rewrite Htasks. cbn [remove_task fst].
      by rewrite Nat.eqb_refl.
  - assert (Hskip : gather_task env pool (pending, params) st1 = (Ok tt, st1)).
    { unfold gather_task, mbind, St_bind. cbn [gets c_polls st1 set_c_polls].
      by rewrite Hnow. }
    rewrite Hskip. cbn [mret St_ret].
    destruct (IH st1) as (polls & Hrun).
    + done.
    + done.
    + exists k. split; [|done]. cbn [c_polls st1 set_c_polls].
      destruct (decide (k = S (c_polls st))) as [->|]; [congruence|lia].
    + exists polls. rewrite Hrun. done.
Qed.

(** X15. With a pool of one worker (or one that does not say how many it
    has), [map_parallel] gives what [map_single] gives on the sorted
    files: if [map_single] on [sorted(files)] returns, then, as soon as the
    pool reports the one task done within the scans followed,
    [map_parallel] on [files] returns the same schema updates, row counts
    and schema, and leaves the same world. *)
Theorem map_parallel_one_worker (rounds : nat) (schema : Schema)
    (load_id : string) (files : list string) (w w' : World)
    (rv : TMapFuncRV) :
  default 1%Z (_max_workers pool) = 1%Z ->
  files <> [] ->
  (exists k, (1 <= k <= rounds)%nat /\ completes pool 0 k = true) ->
  map_single env schema load_id (Py.sorted files) w = (Ok rv, w') ->
  map_parallel env pool rounds schema load_id files w = (Ok rv, w').
Proof.
  intros Hone Hne (k & Hk & Hdone) Hsingle.
  unfold map_single, mbind, St_bind in Hsingle.
  unfold map_parallel, map_parallel_locals, mbind, St_bind.
  rewrite Hone, (group_worker_files_one files Hne).
  cbn [lift gets map submit_all]. unfold mbind, St_bind, submit.
  cbn [c_schema c_world init_coordinator param_schema param_load_id
       param_files].
  unfold to_dict in *.
  destruct (w_normalize_files env schema load_id (Py.sorted files) w)
    as [[[[[updates items] closed] counts]|e] w1]; [|done].
  destruct (update_table updates schema) as [[[]|e] schema'] eqn:Hmerge;
    [|done].
  cbn [lift modify mret St_ret] in Hsingle. injection Hsingle as <- <-.
  cbn [mret St_ret modify].
  match goal with
  | |- context [gather env pool rounds ?st] =>
      destruct (gather_single_task
                  {| future_id := 0;
                     future_result := Ok (updates, items, closed, counts) |}
                  {| param_schema := schema; param_load_id := load_id;
                     param_files := Py.sorted files |}
                  updates items closed counts schema' eq_refl rounds st)
        as (polls & Hrun)
  end.
  - done.
  - done.
  - exists k. split; [cbn; lia|done].
  - rewrite Hrun. cbn. by rewrite merge_row_count_empty.
Qed.

End OneWorker.

Lemma map_parallel_one_worker_witness :
  exists rv w',
    map_single Scenario.env Scenario.stored_schema "L1"
      (Py.sorted Scenario.files) Scenario.world0 = (Ok rv, w')
    /\ map_parallel Scenario.env NullExecutor 1 Scenario.stored_schema "L1"
         Scenario.files Scenario.world0 = (Ok rv, w').
Proof.
  destruct (map_single Scenario.env Scenario.stored_schema "L1"
              (Py.sorted Scenario.files) Scenario.world0)
    as [[rv|e] w'] eqn:H.
  - exists rv, w'. split; [reflexivity|].
    apply (map_parallel_one_worker Scenario.env NullExecutor 1
             Scenario.stored_schema "L1" Scenario.files Scenario.world0 w' rv).
    + reflexivity.
    + discriminate.
    + exists 1%nat. split; [lia|reflexivity].
    + exact H.
  - exfalso. vm_compute in H. discriminate H.
Defined.

(** ** What a spool that does not get through leaves behind *)

Section SpoolFailure.

Ltac crunch map_f :=
  repeat
    (cbn beta iota zeta delta
       [fst snd outcome mret St_ret modify save_schema save_temp_schema
        save_temp_schema_updates delete_extracted_files
        faults log_call set_world set_row_counts world signalled temp
        set_temp set_stored_schemas set_extracted set_processing];
     rewrite ?schema_not_found_decide, ?lookup_insert_eq;
     match goal with
     | |- context [match faults ?s ?n with _ => _ end] =>
         destruct (faults s n) eqn:?
     | |- context [decide (?e = SchemaNotFoundError)] =>
         destruct (decide (e = SchemaNotFoundError))
     | |- context [map_f ?a ?b ?c ?w] =>
         let H := fresh "Hmap" in
         destruct (map_f a b c w) as [[[[? ?] ?]|?] ?] eqn:H
     | |- context [match stored_schemas ?w !! ?n with _ => _ end] =>
         destruct (stored_schemas w !! n) eqn:?
     | |- context [if signalled ?w then _ else _] =>
         destruct (signalled w) eqn:?
     | |- context [match temp ?w !! ?l with _ => _ end] =>
         destruct (temp w !! l) eqn:?
     end).

Ltac refute Hnot :=
  exfalso;
  match type of Hnot with
  | forall fs o, _ ∉ ?l =>
      match l with
      | context [(DeleteExtractedFiles ?fs, ?o)] => apply (Hnot fs o)
      end
  | forall o, _ ∉ ?l =>
      match l with
      | context [(CommitTempLoadPackage _, ?o)] => apply (Hnot o)
      end
  end;
  apply list_elem_of_In; simpl; tauto.

(** X16. A spool changes the inputs only through the two calls meant to:
    with a mapping function that leaves the inputs alone, as [map_single]
    and [map_parallel] do, the extracted files are all still there after
    any run of [spool_files] that did not get to call
    [delete_extracted_files], and the published packages are as they were
    after any run that did not get to call [commit_temp_load_package];
    so a spool stopped by a signal or by a failure before the commit has
    consumed nothing and published nothing. *)
Theorem spool_files_keeps_inputs (name load_id : string)
    (map_f : TMapFuncType) (files : list string) (self : Normalize) :
  (forall schema w, same_inputs w (map_f schema load_id files w).2) ->
  let run := spool_files name load_id map_f files self in
  let new := drop (length (calls self)) (calls run.2) in
  ((forall fs o, (DeleteExtractedFiles fs, o) ∉ new) ->
   extracted (world run.2) = extracted (world self))
  /\ ((forall o, (CommitTempLoadPackage load_id, o) ∉ new) ->
      processing (world run.2) = processing (world self)).
Proof.
  intros Hframe. cbv zeta.
  unfold spool_files, load_or_create_schema, try_except, external,
    mbind, St_bind, raise_if_signalled, commit_temp_load_package,
    load_schema.
  crunch map_f.
  all: unfold modify; cbn [calls log_call set_world set_row_counts fst snd];
    rewrite <- ?app_assoc; cbn [app]; rewrite ?drop_app_length.
  all: try match goal with
       | H : ?f ?a ?l ?fs ?w = (_, _) |- _ =>
           let F := fresh "F" in
           pose proof (Hframe a w) as F; rewrite H in F;
             destruct F as (Fe & Fp & _); cbn [snd] in Fe, Fp
       end.
  all: split; intros Hnot;
    first [ cbn; congruence | refute Hnot ].
Qed.

End SpoolFailure.

Lemma spool_files_keeps_inputs_witness :
  let self :=
    {| world := set_extracted Fallback.files
                  (set_temp {["L1" := empty_package]} Scenario.world0);
       pool := NullExecutor; _row_counts := ∅; calls := [];
       faults := fun n => if Nat.eqb n 5 then Some SignalReceivedException
                          else None |} in
  let run := spool_files "s" "L1" (map_single Fallback.env) Fallback.files
               self in
  run.1 = Raise SignalReceivedException
  /\ extracted (world run.2) = extracted (world self)
  /\ processing (world run.2) = processing (world self).
Proof.
  intros self run.
  assert (Hlog : no_commit_no_delete
                   (drop (length (calls self)) (calls run.2)) = true)
    by (by vm_compute).
  destruct (no_commit_no_delete_spec _ Hlog) as [Hcommit Hdelete].
  split; [by vm_compute|].
  destruct (spool_files_keeps_inputs "s" "L1" (map_single Fallback.env)
              Fallback.files self
              (fun schema w =>
                 map_single_same_inputs Fallback.env schema "L1"
                   Fallback.files w))
    as [Hextracted Hprocessing].
  split.
  - apply Hextracted. exact Hdelete.
  - apply Hprocessing. intros o. apply Hcommit.
Defined.

(** ** A run that returns has consumed every file it found *)

Section RunConsumes.

Variable env : Collaborators.
Variable rounds : nat.

Ltac crunch map_f :=
  repeat
    (cbn beta iota zeta delta
       [fst snd outcome mret St_ret modify save_schema save_temp_schema
        save_temp_schema_updates delete_extracted_files
        faults log_call set_world set_row_counts world signalled temp
        set_temp set_stored_schemas set_extracted set_processing];
     rewrite ?schema_not_found_decide, ?lookup_insert_eq;
     match goal with
     | |- context [match faults ?s ?n with _ => _ end] =>
         destruct (faults s n) eqn:?
     | |- context [decide (?e = SchemaNotFoundError)] =>
         destruct (decide (e = SchemaNotFoundError))
     | |- context [map_f ?a ?b ?c ?w] =>
         destruct (map_f a b c w) as [[[[? ?] ?]|?] ?] eqn:?
     | |- context [match stored_schemas ?w !! ?n with _ => _ end] =>
         destruct (stored_schemas w !! n) eqn:?
     | |- context [if signalled ?w then _ else _] =>
         destruct (signalled w) eqn:?
     | |- context [match temp ?w !! ?l with _ => _ end] =>
         destruct (temp w !! l) eqn:?
     end).

Global Instance extracted_shrinks_preorder : PreOrder extracted_shrinks.
Proof.
  split.
  - by intros self f.
  - intros a b c Hab Hbc f Hf. by apply Hab, Hbc.
Qed.











End RunConsumes.


(** ** At most two load storages *)

Section StorageKeys.

Variable env : Collaborators.

Global Instance storages_added_preorder : PreOrder storages_added.
Proof.
  split.
  - intros st. split; [done|]. split; [done|]. intros k Hk. by left.
  - intros a b c (Hl1 & Hs1 & Hk1) (Hl2 & Hs2 & Hk2).
    split; [congruence|]. split; [congruence|].
    intros k Hk. destruct (Hk2 k Hk) as [Hb|[Ha|Hp]]; [|subst k..].
    + by apply Hk1.
    + right. by left.
    + right. right. unfold preferred_format. by rewrite Hl1, Hs1.
Qed.

Lemma selected_write_format_cases (caps : DestinationCapabilities)
    (file_format : option string) :
  selected_write_format caps file_format = Some "arrow"
  \/ selected_write_format caps file_format = preferred_format caps.
Proof.
  unfold selected_write_format, preferred_format, py_or.
  destruct (_ && _); [by left|right].
  destruct (preferred_loader_file_format caps) as [f|];
    [by destruct (String.eqb f "")|done].
Qed.

Lemma get_load_storage_added (file_format : option string) :
  respects storages_added (_get_load_storage file_format).
Proof.
  intros st. rewrite get_load_storage_eq. cbn [snd].
  set (st1 := if _ && _ then append_arrow st else st).
  assert (H1 : storages_added st st1).
  { subst st1. destruct (_ && _); [|reflexivity].
    split; [done|]. split; [done|]. intros k Hk. by left. }
  destruct (load_storages st !! _) eqn:Hkey; [done|].
  etransitivity; [exact H1|].
  split; [done|]. split; [done|].
  intros k Hk. cbn [log_worker_call set_load_storages load_storages] in Hk.
  apply lookup_insert_is_Some in Hk as [Heq|[_ Hk]]; [subst k|by left].
  right.
  assert (Hcaps : preferred_format (worker_caps st1)
                  = preferred_format (worker_caps st)).
  { destruct H1 as (Hl & Hs & _). unfold preferred_format.
    by rewrite Hl, Hs. }
  rewrite Hcaps. apply selected_write_format_cases.
Qed.

Ltac keeps_storages :=
  intros st; split; [done|]; split; [done|]; intros k Hk;
  cbn [log_worker_call on_storage set_load_storages set_schema
       set_load_storage set_item_normalizers add_root_table accumulate
       load_storages] in Hk;
  rewrite ?lookup_alter_is_Some in Hk; by left.

Lemma close_writers_added ref load_id :
  respects storages_added (close_writers ref load_id).
Proof.
  apply respects_modify. intros st.
  cbn [log_worker_call load_storages].
  destruct (load_storages st !! ref) as [storage|] eqn:Href.
  - pose proof (close_all_capabilities load_id (loader_file_format storage)
                  (open_writers storage) (closed_files storage)
                  (worker_world st)) as Hcaps.
    destruct (close_all _ _ _ _ _) as [closed w]. cbn [snd] in Hcaps.
    unfold storages_added, worker_caps.
    cbn [set_worker_world worker_world on_storage set_load_storages
         load_storages log_worker_call].
    rewrite Hcaps. split; [done|]. split; [done|].
    intros k Hk. rewrite lookup_alter_is_Some in Hk. by left.
  - split; [done|]. split; [done|]. intros k Hk. by left.
Qed.

Lemma w_normalize_files_locals_added load_id files :
  respects storages_added (w_normalize_files_locals env load_id files).
Proof.
  unfold w_normalize_files_locals, normalize_file, write_empty_jobs,
    write_empty_file, call_normalizer, _get_items_normalizer.
  repeat first
    [ apply get_load_storage_added
    | apply close_writers_added
    | apply respects_modify; keeps_storages
    | respects_step ]; apply _.
Qed.

(** X18. A worker makes at most two load storages, whatever the number
    and the formats of its files: every storage it holds at the end is
    filed under [arrow] or under the destination's preferred format
    ([preferred_loader_file_format or preferred_staging_file_format], as
    read at the start). *)
Theorem w_normalize_files_storages (stored_schema : TStoredSchema)
    (load_id : string) (files : list string) (w : World) :
  let caps0 := destination_capabilities w in
  let st' :=
    (w_normalize_files_locals env load_id files
       (init_worker w stored_schema)).2 in
  (forall k, is_Some (load_storages st' !! k) ->
             k = Some "arrow" \/ k = preferred_format caps0)
  /\ (size (load_storages st') <= 2)%nat.
Proof.
  intros caps0 st'.
  pose proof (w_normalize_files_locals_added load_id files
                (init_worker w stored_schema)) as (_ & _ & Hkeys).
  fold st' in Hkeys.
  assert (Hk : forall k, is_Some (load_storages st' !! k) ->
                         k = Some "arrow" \/ k = preferred_format caps0).
  { intros k Hin. destruct (Hkeys k Hin) as [Hinit|H]; [|exact H].
    cbn in Hinit. rewrite lookup_empty in Hinit. by destruct Hinit. }
  split; [exact Hk|].
  rewrite <- size_dom.
  transitivity (size ({[Some "arrow"; preferred_format caps0]}
                      : gset (option string))).
  - apply subseteq_size. intros k Hin. apply elem_of_dom in Hin.
    destruct (Hk k Hin) as [Ha|Hp]; subst k; set_solver.
  - rewrite size_union_alt, size_singleton.
    assert (Hsub : ({[preferred_format caps0]} ∖ {[Some "arrow"]}
                    : gset (option string))
                   ⊆ {[preferred_format caps0]}).
    { apply subseteq_difference_l. done. }
    apply subseteq_size in Hsub. rewrite size_singleton in Hsub. lia.
Qed.

End StorageKeys.
